(** * pyshapelets/util.py: similarity metrics between numeric time series

    Two shallow embeddings of [src/pyshapelets/util.py].

    The first is in exact real arithmetic: a numpy 1-D array is a
    [list R], the 2-D array [M] a list of rows, indices and lengths are
    natural numbers.  It states what the formulas of the program compute
    when no operation rounds.  Its division is the division of [R], a
    total function: where a statement compares two quotients at a zero
    divisor (a zero standard deviation, an empty window) both sides are
    the same quotient, and every other statement about a quotient names
    the non-zero divisor it needs; in particular the mean and the standard
    deviation of an empty sequence have no meaning in it.

    The second, module [F64], is the same program over IEEE-754 binary64,
    the arithmetic it runs.  It decides what the program returns on a
    given input, and so where an identity of the exact model holds of the
    program only up to rounding.

    In both, a Python exception (an index out of range, two shapes that do
    not broadcast) is the [None] of [option]. *)

From Stdlib Require Import Floats.
From Stdlib Require Import Reals Lra Lia ZArith.
From stdpp Require Import base option list.

Set Warnings "-inexact-float".

Open Scope R_scope.

(** ** The numpy primitives the module calls *)

Module Np.

(** [np.sum] of a 1-D array. *)
Definition sum (x : list R) : R := foldr Rplus 0 x.

(** [len(x)] used as a number. *)
Definition len (x : list R) : R := INR (length x).

(** [np.mean(x)]: the sum divided by the number of elements. *)
Definition mean (x : list R) : R := sum x / len x.

(** [x - c], [x / c] and [x ** 2] with a scalar operand. *)
Definition sub_scalar (x : list R) (c : R) : list R := (λ a, a - c) <$> x.
Definition div_scalar (x : list R) (c : R) : list R := (λ a, a / c) <$> x.
Definition power2 (x : list R) : list R := (λ a, a ^ 2) <$> x.

(** [np.std(x)]: the population standard deviation,
    [sqrt(mean((x - x.mean()) ** 2))]. *)
Definition std (x : list R) : R :=
  sqrt (mean (power2 (sub_scalar x (mean x)))).

(** Binary element-wise operations on two 1-D arrays follow numpy's
    broadcasting: equal lengths operate pointwise, an operand of length
    one is stretched, anything else raises [ValueError]. *)
Definition broadcast (f : R → R → R) (x y : list R) : option (list R) :=
  if decide (length x = length y) then Some (zip_with f x y)
  else match x, y with
       | [a], _ => Some (f a <$> y)
       | _, [b] => Some ((λ a, f a b) <$> x)
       | _, _ => None
       end.

Definition mul : list R → list R → option (list R) := broadcast Rmult.
Definition sub : list R → list R → option (list R) := broadcast Rminus.

(** [np.linalg.norm(x)] of a 1-D array: the 2-norm. *)
Definition linalg_norm (x : list R) : R := sqrt (sum (power2 x)).

(** [np.cumsum(x)]. *)
Fixpoint cumsum_from (acc : R) (x : list R) : list R :=
  match x with
  | [] => []
  | a :: x' => (acc + a) :: cumsum_from (acc + a) x'
  end.
Definition cumsum (x : list R) : list R := cumsum_from 0 x.

(** [np.append(a, b)]. *)
Definition append (a b : list R) : list R := a ++ b.

(** [np.zeros((r, c))]. *)
Definition zeros (r c : nat) : list (list R) := replicate r (replicate c 0).

(** The slice [x[u:u+l]] for non-negative [u] and [l]. *)
Definition slice (x : list R) (u l : nat) : list R := take l (drop u x).

End Np.

(** ** The 2-D array [M] *)

Abbreviation matrix := (list (list R)).

(** Reading [M[u, v]]; [None] is Python's [IndexError]. *)
Definition mat_get (M : matrix) (u v : nat) : option R :=
  row ← M !! u; row !! v.

(** The assignment [M[u, v] = a]; [None] is Python's [IndexError]. *)
Definition mat_set (M : matrix) (u v : nat) (a : R) : option matrix :=
  row ← M !! u;
  if decide (v < length row)%nat then Some (<[u := <[v := a]> row]> M)
  else None.

(** [for i in range(n): s = body(i, s)], stopping at the first exception. *)
Fixpoint for_each {St : Type} (body : nat → St → option St)
    (idx : list nat) (s : St) : option St :=
  match idx with
  | [] => Some s
  | i :: idx' => s' ← body i s; for_each body idx' s'
  end.

Definition for_range {St : Type} (n : nat) (body : nat → St → option St)
    (s : St) : option St :=
  for_each body (seq 0 n) s.

(** ** The functions of util.py *)

(** [z_norm(x)] *)
Definition z_norm (x : list R) : list R :=
  let mu_x := Np.mean x in
  let sigma_x := Np.std x in
  Np.div_scalar (Np.sub_scalar x mu_x) sigma_x.

(** [norm_euclidean_distance(x, y)] *)
Definition norm_euclidean_distance (x y : list R) : option R :=
  d ← Np.sub x y;
  Some (1 / sqrt (Np.len x) * Np.linalg_norm d).

(** [pearson(x, y)] *)
Definition pearson (x y : list R) : option R :=
  let mu_x := Np.mean x in
  let sigma_x := Np.std x in
  let mu_y := Np.mean y in
  let sigma_y := Np.std y in
  let m := Np.len x in
  xy ← Np.mul x y;
  Some ((Np.sum xy - (m * mu_x * mu_y)) / (m * sigma_x * sigma_y)).

(** [pearson_metrics(u, v, l, S_x, S_x2, S_y, S_y2, M)] *)
Definition pearson_metrics (u v l : nat) (S_x S_x2 S_y S_y2 : list R)
    (M : matrix) : option R :=
  sxl ← S_x !! (u + l)%nat; sx ← S_x !! u;
  let mu_x := (sxl - sx) / INR l in
  syl ← S_y !! (v + l)%nat; sy ← S_y !! v;
  let mu_y := (syl - sy) / INR l in
  sx2l ← S_x2 !! (u + l)%nat; sx2 ← S_x2 !! u;
  let sigma_x := sqrt ((sx2l - sx2) / INR l - mu_x ^ 2) in
  sy2l ← S_y2 !! (v + l)%nat; sy2 ← S_y2 !! v;
  let sigma_y := sqrt ((sy2l - sy2) / INR l - mu_y ^ 2) in
  ml ← mat_get M (u + l) (v + l); m0 ← mat_get M u v;
  let xy := ml - m0 in
  Some ((xy - (INR l * mu_x * mu_y)) / (INR l * sigma_x * sigma_y)).

(** One pass of the body of the nested loop of [calculate_metric_arrays];
    the test [u > v] is written [v < u]. *)
Definition M_body (x y : list R) (u v : nat) (M : matrix) : option matrix :=
  let t := Z.to_nat (Z.abs (Z.of_nat u - Z.of_nat v)) in
  if decide (v < u)%nat then
    m0 ← mat_get M u v; a ← x !! (v + t)%nat; b ← y !! v;
    mat_set M (u + 1) (v + 1) (m0 + a * b)
  else
    m0 ← mat_get M u v; a ← x !! u; b ← y !! (u + t)%nat;
    mat_set M (u + 1) (v + 1) (m0 + a * b).

(** [calculate_metric_arrays(x, y)] *)
Definition calculate_metric_arrays (x y : list R)
    : option (list R * list R * list R * list R * matrix) :=
  let S_x := Np.append [0] (Np.cumsum x) in
  let S_x2 := Np.append [0] (Np.cumsum (Np.power2 x)) in
  let S_y := Np.append [0] (Np.cumsum y) in
  let S_y2 := Np.append [0] (Np.cumsum (Np.power2 y)) in
  let M := Np.zeros (length x + 1) (length y + 1) in
  M ← for_range (length x) (λ u M,
         for_range (length y) (λ v M, M_body x y u v M) M) M;
  Some (S_x, S_x2, S_y, S_y2, M).

(** [pearson_dist(x, y)] *)
Definition pearson_dist (x y : list R) : option R :=
  p ← pearson x y; Some (sqrt (2 * (1 - p))).

(** [pearson_dist_metrics(u, v, l, S_x, S_x2, S_y, S_y2, M)] *)
Definition pearson_dist_metrics (u v l : nat) (S_x S_x2 S_y S_y2 : list R)
    (M : matrix) : option R :=
  p ← pearson_metrics u v l S_x S_x2 S_y S_y2 M; Some (sqrt (2 * (1 - p))).

(** ** The same functions in float64

    The functions again, with the arithmetic the program runs: IEEE-754
    binary64, round to nearest even, for arrays of dtype float64.  Every
    function is the one above with the operations of [R] replaced by those
    of binary64, so a division by zero yields an infinity or a NaN and a
    square root of a negative number a NaN.  [np.cumsum] and the loop that
    fills [M] add from left to right for every length; [np.sum] (and with
    it [np.mean], [np.std] and [np.linalg.norm]) adds from left to right
    for arrays shorter than 8 elements, which is the range in which this
    model is used to evaluate them: a statement made for every length
    does not depend on the order of a sum. *)

Module F64.
Local Open Scope float_scope.

(** An infinity or a NaN. *)
Definition non_finite (f : float) : bool :=
  match Prim2SF f with
  | S754_nan | S754_infinity _ => true
  | _ => false
  end.

(** [+0.0] or [-0.0]. *)
Definition is_zero (f : float) : bool :=
  match Prim2SF f with
  | S754_zero _ => true
  | _ => false
  end.


(** A Python [int] that is a length or a window size, as a float64. *)
Definition of_int (n : nat) : float :=
  PrimFloat.of_uint63 (Uint63.of_Z (Z.of_nat n)).

Module Np.

Definition sum (x : list float) : float := foldl PrimFloat.add 0 x.

Definition len (x : list float) : float := of_int (length x).

Definition mean (x : list float) : float := sum x / len x.

Definition sub_scalar (x : list float) (c : float) : list float :=
  (λ a, a - c) <$> x.
Definition div_scalar (x : list float) (c : float) : list float :=
  (λ a, a / c) <$> x.
Definition power2 (x : list float) : list float := (λ a, a * a) <$> x.

Definition std (x : list float) : float :=
  PrimFloat.sqrt (mean (power2 (sub_scalar x (mean x)))).

Definition broadcast (f : float → float → float) (x y : list float)
    : option (list float) :=
  if decide (length x = length y) then Some (zip_with f x y)
  else match x, y with
       | [a], _ => Some (f a <$> y)
       | _, [b] => Some ((λ a, f a b) <$> x)
       | _, _ => None
       end.

Definition mul : list float → list float → option (list float) :=
  broadcast PrimFloat.mul.
Definition sub : list float → list float → option (list float) :=
  broadcast PrimFloat.sub.

Definition linalg_norm (x : list float) : float :=
  PrimFloat.sqrt (sum (power2 x)).

Fixpoint cumsum_from (acc : float) (x : list float) : list float :=
  match x with
  | [] => []
  | a :: x' => (acc + a) :: cumsum_from (acc + a) x'
  end.
Definition cumsum (x : list float) : list float := cumsum_from 0 x.

Definition append (a b : list float) : list float := a ++ b.

Definition zeros (r c : nat) : list (list float) :=
  replicate r (replicate c 0).

End Np.

Definition mat_get (M : list (list float)) (u v : nat) : option float :=
  row ← M !! u; row !! v.

Definition mat_set (M : list (list float)) (u v : nat) (a : float)
    : option (list (list float)) :=
  row ← M !! u;
  if decide (v < length row)%nat then Some (<[u := <[v := a]> row]> M)
  else None.

(** [z_norm(x)] *)
Definition z_norm (x : list float) : list float :=
  let mu_x := Np.mean x in
  let sigma_x := Np.std x in
  Np.div_scalar (Np.sub_scalar x mu_x) sigma_x.

(** [norm_euclidean_distance(x, y)] *)
Definition norm_euclidean_distance (x y : list float) : option float :=
  d ← Np.sub x y;
  Some (1 / PrimFloat.sqrt (Np.len x) * Np.linalg_norm d).

(** [pearson(x, y)] *)
Definition pearson (x y : list float) : option float :=
  let mu_x := Np.mean x in
  let sigma_x := Np.std x in
  let mu_y := Np.mean y in
  let sigma_y := Np.std y in
  let m := Np.len x in
  xy ← Np.mul x y;
  Some ((Np.sum xy - (m * mu_x * mu_y)) / (m * sigma_x * sigma_y)).

(** [pearson_metrics(u, v, l, S_x, S_x2, S_y, S_y2, M)] *)
Definition pearson_metrics (u v l : nat) (S_x S_x2 S_y S_y2 : list float)
    (M : list (list float)) : option float :=
  sxl ← S_x !! (u + l)%nat; sx ← S_x !! u;
  let mu_x := (sxl - sx) / of_int l in
  syl ← S_y !! (v + l)%nat; sy ← S_y !! v;
  let mu_y := (syl - sy) / of_int l in
  sx2l ← S_x2 !! (u + l)%nat; sx2 ← S_x2 !! u;
  let sigma_x := PrimFloat.sqrt ((sx2l - sx2) / of_int l - mu_x * mu_x) in
  sy2l ← S_y2 !! (v + l)%nat; sy2 ← S_y2 !! v;
  let sigma_y := PrimFloat.sqrt ((sy2l - sy2) / of_int l - mu_y * mu_y) in
  ml ← mat_get M (u + l) (v + l); m0 ← mat_get M u v;
  let xy := ml - m0 in
  Some ((xy - (of_int l * mu_x * mu_y)) / (of_int l * sigma_x * sigma_y)).

(** One pass of the body of the nested loop of [calculate_metric_arrays]. *)
Definition M_body (x y : list float) (u v : nat) (M : list (list float))
    : option (list (list float)) :=
  let t := Z.to_nat (Z.abs (Z.of_nat u - Z.of_nat v)) in
  if decide (v < u)%nat then
    m0 ← mat_get M u v; a ← x !! (v + t)%nat; b ← y !! v;
    mat_set M (u + 1) (v + 1) (m0 + a * b)
  else
    m0 ← mat_get M u v; a ← x !! u; b ← y !! (u + t)%nat;
    mat_set M (u + 1) (v + 1) (m0 + a * b).

(** [calculate_metric_arrays(x, y)] *)
Definition calculate_metric_arrays (x y : list float)
    : option (list float * list float * list float * list float
              * list (list float)) :=
  let S_x := Np.append [0] (Np.cumsum x) in
  let S_x2 := Np.append [0] (Np.cumsum (Np.power2 x)) in
  let S_y := Np.append [0] (Np.cumsum y) in
  let S_y2 := Np.append [0] (Np.cumsum (Np.power2 y)) in
  let M := Np.zeros (length x + 1) (length y + 1) in
  M ← for_range (length x) (λ u M,
         for_range (length y) (λ v M, M_body x y u v M) M) M;
  Some (S_x, S_x2, S_y, S_y2, M).

(** [pearson_dist(x, y)] *)
Definition pearson_dist (x y : list float) : option float :=
  p ← pearson x y; Some (PrimFloat.sqrt (2 * (1 - p))).

(** [pearson_dist_metrics(u, v, l, S_x, S_x2, S_y, S_y2, M)] *)
Definition pearson_dist_metrics (u v l : nat)
    (S_x S_x2 S_y S_y2 : list float) (M : list (list float)) : option float :=
  p ← pearson_metrics u v l S_x S_x2 S_y S_y2 M;
  Some (PrimFloat.sqrt (2 * (1 - p))).

(** The sum of [x[u+i] * y[v+i]] over [i < l], added from left to right. *)
Definition window_products (x y : list float) (u v l : nat) : float :=
  foldl (λ acc i, acc + nth (u + i) x 0 * nth (v + i) y 0) 0 (seq 0 l).

(** The value that the loop leaves in [M[u, v]]. *)
Fixpoint diag_sum (x y : list float) (u v : nat) : float :=
  match u, v with
  | S u', S v' => diag_sum x y u' v' + nth u' x 0 * nth v' y 0
  | _, _ => 0
  end.

Definition mat_shape (r c : nat) (M : list (list float)) : Prop :=
  length M = r ∧ Forall (λ row, length row = c) M.

Definition M_inv_inner (x y : list float) (u v : nat)
    (M : list (list float)) : Prop :=
  mat_shape (length x + 1) (length y + 1) M ∧
  ∀ i j, (i ≤ length x)%nat → (j ≤ length y)%nat →
    mat_get M i j =
    Some (if decide (i ≤ u ∨ (i = u + 1 ∧ j ≤ v))%nat
          then diag_sum x y i j else 0).

Definition M_inv_outer (x y : list float) (u : nat)
    (M : list (list float)) : Prop :=
  mat_shape (length x + 1) (length y + 1) M ∧
  ∀ i j, (i ≤ length x)%nat → (j ≤ length y)%nat →
    mat_get M i j = Some (if decide (i ≤ u)%nat then diag_sum x y i j else 0).

End F64.

(** ** Definitions used by the statements and the proofs *)

(** [M] has [r] rows of [c] columns. *)
Definition mat_shape (r c : nat) (M : matrix) : Prop :=
  length M = r ∧ Forall (λ row, length row = c) M.

(** The running sum of products along a diagonal: the value that the loop
    of [calculate_metric_arrays] leaves in [M[u, v]]. *)
Fixpoint diag_sum (x y : list R) (u v : nat) : R :=
  match u, v with
  | S u', S v' => diag_sum x y u' v' + nth u' x 0 * nth v' y 0
  | _, _ => 0
  end.

(** The state of [M] when the loop is about to run the pass [(u, v)]:
    rows up to [u], and row [u + 1] up to column [v], are final. *)
Definition M_inv_inner (x y : list R) (u v : nat) (M : matrix) : Prop :=
  mat_shape (length x + 1) (length y + 1) M ∧
  ∀ i j, (i ≤ length x)%nat → (j ≤ length y)%nat →
    mat_get M i j =
    Some (if decide (i ≤ u ∨ (i = u + 1 ∧ j ≤ v))%nat
          then diag_sum x y i j else 0).

(** The state of [M] before the outer pass [u]. *)
Definition M_inv_outer (x y : list R) (u : nat) (M : matrix) : Prop :=
  mat_shape (length x + 1) (length y + 1) M ∧
  ∀ i j, (i ≤ length x)%nat → (j ≤ length y)%nat →
    mat_get M i j = Some (if decide (i ≤ u)%nat then diag_sum x y i j else 0).

(** [big_sum l f] is the finite sum of [f 0], ..., [f (l - 1)]. *)
Fixpoint big_sum (l : nat) (f : nat → R) : R :=
  match l with
  | O => 0
  | S l' => big_sum l' f + f l'
  end.

(** The sum of the pointwise products of the windows of length [l] that
    start at [x[u]] and at [y[v]], as the specification writes it. *)
Definition window_products (x y : list R) (u v l : nat) : R :=
  big_sum l (λ i, nth (u + i) x 0 * nth (v + i) y 0).

(** The offset and the branch that the pass [(u, v)] of the loop uses. *)
Definition offset (u v : nat) : Z := Z.abs (Z.of_nat u - Z.of_nat v).

(** A query [(u, v, l)] is aligned with the construction of [M] when every
    pass along its diagonal used the offset and the branch of its start. *)
Definition aligned (u v l : nat) : Prop :=
  ∀ i, (i < l)%nat →
    offset (u + i) (v + i) = offset u v ∧
    ((v + i < u + i)%nat ↔ (v < u)%nat).

(** The sum of the squared deviations from the mean. *)
Definition sq_dev (a : list R) : R :=
  Np.sum (Np.power2 (Np.sub_scalar a (Np.mean a))).

(** A sequence is non-constant when two of its elements differ. *)
Definition non_constant (a : list R) : Prop :=
  ∃ i j p q, a !! i = Some p ∧ a !! j = Some q ∧ p ≠ q.

(** The mean, the population standard deviation, the sum of products and
    the 2-norm of the difference, written over the indices [0 .. n-1]. *)
Definition mean_spec (x : list R) : R :=
  big_sum (length x) (λ i, nth i x 0) / INR (length x).

Definition pop_std_spec (x : list R) : R :=
  sqrt (big_sum (length x) (λ i, (nth i x 0 - mean_spec x) ^ 2)
        / INR (length x)).

Definition dot_spec (x y : list R) : R :=
  big_sum (length x) (λ i, nth i x 0 * nth i y 0).

Definition l2_diff_spec (x y : list R) : R :=
  sqrt (big_sum (length x) (λ i, (nth i x 0 - nth i y 0) ^ 2)).

(** The sum of the products of the deviations from the two means. *)
Definition cross_dev (x y : list R) : R :=
  Np.sum (zip_with Rmult (Np.sub_scalar x (Np.mean x))
                         (Np.sub_scalar y (Np.mean y))).

(** ** Loops and the 2-D array *)

Section Loops.
Context {St : Type}.
Variable body : nat → St → option St.
Variable Inv : nat → St → Prop.

(** The invariant rule of a [for] loop over [range]: an invariant that
    every pass re-establishes without raising holds after the loop, and
    the loop does not raise. *)
Lemma for_each_seq_inv (a k : nat) (s : St) :
  Inv a s →
  (∀ i s0, (a ≤ i < a + k)%nat → Inv i s0 →
     ∃ s1, body i s0 = Some s1 ∧ Inv (i + 1) s1) →
  ∃ s', for_each body (seq a k) s = Some s' ∧ Inv (a + k) s'.
Proof.
  revert a s. induction k as [|k IH]; intros a s Ha Hstep.
  - exists s. rewrite Nat.add_0_r. done.
  - destruct (Hstep a s) as (s1 & Hb & H1); [lia | done |].
    destruct (IH (S a) s1) as (s' & Hf & H');
      [by rewrite Nat.add_1_r in H1 | intros; apply Hstep; [lia | done] |].
    exists s'. split.
    + simpl. rewrite Hb. done.
    + by replace (a + S k)%nat with (S a + k)%nat by lia.
Qed.

Lemma for_range_inv (n : nat) (s : St) :
  Inv 0 s →
  (∀ i s0, (i < n)%nat → Inv i s0 →
     ∃ s1, body i s0 = Some s1 ∧ Inv (i + 1) s1) →
  ∃ s', for_range n body s = Some s' ∧ Inv n s'.
Proof.
  intros H0 Hstep. apply (for_each_seq_inv 0 n s H0).
  intros i s0 Hi. apply Hstep. lia.
Qed.
End Loops.

Lemma mat_shape_zeros (r c : nat) : mat_shape r c (Np.zeros r c).
Proof.
  split; [apply length_replicate |].
  apply Forall_replicate, length_replicate.
Qed.

Lemma mat_get_zeros (r c i j : nat) :
  (i < r)%nat → (j < c)%nat → mat_get (Np.zeros r c) i j = Some 0.
Proof.
  intros Hi Hj. unfold mat_get, Np.zeros.
  rewrite lookup_replicate_2 by done. simpl.
  by apply lookup_replicate_2.
Qed.

Lemma mat_shape_row (r c : nat) (M : matrix) (i : nat) :
  mat_shape r c M → (i < r)%nat →
  ∃ row, M !! i = Some row ∧ length row = c.
Proof.
  intros [Hl Hf] Hi.
  destruct (lookup_lt_is_Some_2 M i) as [row Hrow]; [lia |].
  exists row. split; [done |].
  by apply (Forall_lookup_1 _ _ _ _ Hf Hrow).
Qed.

(** An in-range assignment succeeds, keeps the shape, and changes the one
    entry it names. *)
Lemma mat_set_spec (r c : nat) (M : matrix) (u v : nat) (a : R) :
  mat_shape r c M → (u < r)%nat → (v < c)%nat →
  ∃ M', mat_set M u v a = Some M' ∧ mat_shape r c M' ∧
    ∀ i j, mat_get M' i j =
           if decide (i = u ∧ j = v) then Some a else mat_get M i j.
Proof.
  intros HM Hu Hv.
  destruct (mat_shape_row r c M u HM Hu) as (row & Hrow & Hlen).
  exists (<[u := <[v := a]> row]> M). split; [| split].
  - unfold mat_set. rewrite Hrow. simpl. rewrite decide_True by lia. done.
  - destruct HM as [Hl Hf]. split; [by rewrite length_insert |].
    apply Forall_insert; [done |]. by rewrite length_insert.
  - intros i j. unfold mat_get. destruct (decide (i = u)) as [-> | Hne].
    + rewrite list_lookup_insert_eq by (destruct HM; lia). simpl.
      destruct (decide (j = v)) as [-> | Hnv].
      * rewrite decide_True by done. apply list_lookup_insert_eq. lia.
      * rewrite decide_False by tauto. rewrite Hrow. simpl.
        by apply list_lookup_insert_ne.
    + rewrite decide_False by tauto.
      by rewrite list_lookup_insert_ne.
Qed.

(** ** The closed form of [M] *)

Lemma diag_sum_0_r (x y : list R) (u : nat) : diag_sum x y u 0 = 0.
Proof. by destruct u. Qed.

(** The offset [t = abs(u - v)] of the loop body puts both branches on the
    same pair of indices. *)
Lemma offset_gt (u v : nat) :
  (v < u)%nat → (v + Z.to_nat (Z.abs (Z.of_nat u - Z.of_nat v)))%nat = u.
Proof. lia. Qed.

Lemma offset_le (u v : nat) :
  ¬ (v < u)%nat → (u + Z.to_nat (Z.abs (Z.of_nat u - Z.of_nat v)))%nat = v.
Proof. lia. Qed.

Section MetricArrays.
Variables x y : list R.

Let n := length x.
Let m := length y.

Lemma M_body_inv (u v : nat) (M : matrix) :
  (u < n)%nat → (v < m)%nat → M_inv_inner x y u v M →
  ∃ M', M_body x y u v M = Some M' ∧ M_inv_inner x y u (v + 1) M'.
Proof.
  intros Hu Hv [Hshape Hget].
  destruct (lookup_lt_is_Some_2 x u Hu) as [a Ha].
  destruct (lookup_lt_is_Some_2 y v Hv) as [b Hb].
  destruct (mat_set_spec (n + 1) (m + 1) M (u + 1) (v + 1)
              (diag_sum x y u v + a * b) Hshape) as (M' & Hset & Hsh' & Hget');
    [lia | lia |].
  assert (mat_get M u v = Some (diag_sum x y u v)) as Hm0.
  { rewrite (Hget u v) by lia. by rewrite decide_True by lia. }
  exists M'. split.
  - unfold M_body. rewrite Hm0.
    destruct (decide (v < u)%nat) as [Hlt | Hge]; simpl.
    + rewrite (offset_gt u v Hlt), Ha, Hb. simpl. exact Hset.
    + rewrite (offset_le u v Hge), Ha, Hb. simpl. exact Hset.
  - split; [exact Hsh' |]. intros i j Hi Hj. rewrite Hget'.
    destruct (decide (i = u + 1 ∧ j = v + 1)%nat) as [[-> ->] | Hne].
    + rewrite decide_True by lia. f_equal.
      rewrite !Nat.add_1_r. simpl.
      by rewrite (nth_lookup_Some _ _ _ _ Ha), (nth_lookup_Some _ _ _ _ Hb).
    + rewrite (Hget i j) by lia. f_equal.
      destruct (decide (i ≤ u ∨ (i = u + 1 ∧ j ≤ v))%nat);
        destruct (decide (i ≤ u ∨ (i = u + 1 ∧ j ≤ v + 1))%nat);
        try done; exfalso; lia.
Qed.

Lemma M_row_inv (u : nat) (M : matrix) :
  (u < n)%nat → M_inv_outer x y u M →
  ∃ M', for_range m (λ v M, M_body x y u v M) M = Some M' ∧
        M_inv_outer x y (u + 1) M'.
Proof.
  intros Hu [Hshape Hget].
  destruct (for_range_inv (λ v M, M_body x y u v M) (M_inv_inner x y u) m M)
    as (M' & Hrun & Hsh' & Hget').
  - split; [done |]. intros i j Hi Hj. rewrite (Hget i j) by done. f_equal.
    destruct (decide (i ≤ u)%nat);
      destruct (decide (i ≤ u ∨ (i = u + 1 ∧ j ≤ 0))%nat);
      try done; try (exfalso; lia).
    assert (j = 0)%nat as -> by lia. by rewrite diag_sum_0_r.
  - intros v M0 Hv HM0. by apply M_body_inv.
  - exists M'. split; [done |]. split; [done |].
    intros i j Hi Hj. rewrite (Hget' i j) by done. f_equal.
    destruct (decide (i ≤ u + 1)%nat);
      destruct (decide (i ≤ u ∨ (i = u + 1 ∧ j ≤ m))%nat);
      try done; exfalso; lia.
Qed.

(** The nested loop never raises and leaves the closed form in [M]. *)
Lemma M_loop_closed_form :
  ∃ M, for_range n (λ u M, for_range m (λ v M, M_body x y u v M) M)
         (Np.zeros (n + 1) (m + 1)) = Some M ∧
       mat_shape (n + 1) (m + 1) M ∧
       ∀ i j, (i ≤ n)%nat → (j ≤ m)%nat →
         mat_get M i j = Some (diag_sum x y i j).
Proof.
  destruct (for_range_inv
              (λ u M, for_range m (λ v M, M_body x y u v M) M)
              (M_inv_outer x y) n (Np.zeros (n + 1) (m + 1)))
    as (M & Hrun & Hshape & Hget).
  - split; [apply mat_shape_zeros |]. intros i j Hi Hj.
    rewrite mat_get_zeros by lia. f_equal.
    destruct (decide (i ≤ 0)%nat); [| done].
    assert (i = 0)%nat as -> by lia. done.
  - intros u M0 Hu HM0. by apply M_row_inv.
  - exists M. split; [done |]. split; [done |].
    intros i j Hi Hj. rewrite (Hget i j) by done.
    by rewrite decide_True.
Qed.
End MetricArrays.

(** ** Concrete runs *)

(** [calculate_metric_arrays([1, 2], [3, 4, 5])]. *)
Example calculate_metric_arrays_run :
  calculate_metric_arrays [1; 2] [3; 4; 5] =
  Some ([0; 1; 3], [0; 1; 5], [0; 3; 7; 12], [0; 9; 25; 50],
        [[0; 0; 0; 0]; [0; 3; 4; 5]; [0; 6; 11; 14]]).
Proof.
  unfold calculate_metric_arrays, for_range, M_body, mat_get, mat_set,
    Np.append, Np.cumsum, Np.power2.
  simpl. repeat f_equal; lra.
Qed.

(** A window that runs past the end of [x] raises [IndexError]. *)
Example pearson_metrics_out_of_range :
  pearson_metrics 1 0 2 [0; 1; 3] [0; 1; 5] [0; 3; 7; 12] [0; 9; 25; 50]
    [[0; 0; 0; 0]; [0; 3; 4; 5]; [0; 6; 11; 14]] = None.
Proof. reflexivity. Qed.

(** Two lengths that do not broadcast raise [ValueError]. *)
Example pearson_shape_mismatch : pearson [1; 2] [3; 4; 5] = None.
Proof. reflexivity. Qed.

(** ** Statements about [M] *)

Lemma aligned_always (u v l : nat) : aligned u v l.
Proof. intros i _. unfold offset. lia. Qed.

Lemma diag_sum_window (x y : list R) (u v l : nat) :
  diag_sum x y (u + l) (v + l) - diag_sum x y u v = window_products x y u v l.
Proof.
  unfold window_products. induction l as [|l IH].
  - rewrite !Nat.add_0_r. simpl. lra.
  - replace (u + S l)%nat with (S (u + l)) by lia.
    replace (v + S l)%nat with (S (v + l)) by lia.
    simpl. rewrite <- IH. lra.
Qed.

(** [calculate_metric_arrays] never raises, and its [M] is the closed form. *)
Lemma calculate_metric_arrays_closed_form (x y : list R) :
  ∃ M, calculate_metric_arrays x y =
         Some (Np.append [0] (Np.cumsum x),
               Np.append [0] (Np.cumsum (Np.power2 x)),
               Np.append [0] (Np.cumsum y),
               Np.append [0] (Np.cumsum (Np.power2 y)), M) ∧
       mat_shape (length x + 1) (length y + 1) M ∧
       ∀ i j, (i ≤ length x)%nat → (j ≤ length y)%nat →
         mat_get M i j = Some (diag_sum x y i j).
Proof.
  destruct (M_loop_closed_form x y) as (M & Hrun & Hshape & Hget).
  exists M. split; [| done].
  unfold calculate_metric_arrays. rewrite Hrun. done.
Qed.

(** Both branches of the loop body read [x[u]] and [y[v]]. *)
Lemma M_body_uniform (x y : list R) (u v : nat) (M : matrix) :
  M_body x y u v M =
  (m0 ← mat_get M u v; a ← x !! u; b ← y !! v;
   mat_set M (u + 1) (v + 1) (m0 + a * b)).
Proof.
  unfold M_body. destruct (decide (v < u)%nat) as [Hlt | Hge].
  - by rewrite (offset_gt u v Hlt).
  - by rewrite (offset_le u v Hge).
Qed.

(** C2: [calculate_metric_arrays(x, y)] returns an [M] of [n + 1] rows and
    [m + 1] columns whose row 0 and column 0 are zero and in which, for
    every [u < n] and [v < m] with [t = |u - v|], the entry
    [M[u+1, v+1]] is [M[u, v] + x[v+t] * y[v]] when [u > v] and
    [M[u, v] + x[u] * y[u+t]] otherwise. *)
Theorem calculate_metric_arrays_M_recurrence (x y : list R) :
  ∃ S_x S_x2 S_y S_y2 M,
    calculate_metric_arrays x y = Some (S_x, S_x2, S_y, S_y2, M) ∧
    mat_shape (length x + 1) (length y + 1) M ∧
    (∀ j, (j ≤ length y)%nat → mat_get M 0 j = Some 0) ∧
    (∀ i, (i ≤ length x)%nat → mat_get M i 0 = Some 0) ∧
    ∀ u v, (u < length x)%nat → (v < length y)%nat →
      let t := Z.to_nat (Z.abs (Z.of_nat u - Z.of_nat v)) in
      ∃ m0 a b,
        mat_get M u v = Some m0 ∧
        (if decide (v < u)%nat
         then x !! (v + t)%nat = Some a ∧ y !! v = Some b
         else x !! u = Some a ∧ y !! (u + t)%nat = Some b) ∧
        mat_get M (u + 1) (v + 1) = Some (m0 + a * b).
Proof.
  destruct (calculate_metric_arrays_closed_form x y) as (M & Hrun & Hshape & Hget).
  eexists _, _, _, _, M. split; [exact Hrun |]. split; [exact Hshape |].
  split; [| split].
  - intros j Hj. by rewrite Hget by lia.
  - intros i Hi. rewrite Hget by lia. by rewrite diag_sum_0_r.
  - intros u v Hu Hv t.
    destruct (lookup_lt_is_Some_2 x u Hu) as [a Ha].
    destruct (lookup_lt_is_Some_2 y v Hv) as [b Hb].
    exists (diag_sum x y u v), a, b. split; [apply Hget; lia |]. split.
    + subst t. destruct (decide (v < u)%nat) as [Hlt | Hge].
      * by rewrite (offset_gt u v Hlt).
      * by rewrite (offset_le u v Hge).
    + rewrite Hget by lia. rewrite !Nat.add_1_r. simpl.
      by rewrite (nth_lookup_Some _ _ _ _ Ha), (nth_lookup_Some _ _ _ _ Hb).
Qed.

(** C3: for the [M] of [calculate_metric_arrays(x, y)] and every query
    [(u, v, l)] with [u + l ≤ n] and [v + l ≤ m] that is aligned with the
    construction of [M], [M[u+l, v+l] - M[u, v]] is, in exact arithmetic,
    the sum of [x[u+i] * y[v+i]] over [i < l]. *)
Theorem M_window_sum_aligned (x y : list R) (u v l : nat) :
  (u + l ≤ length x)%nat → (v + l ≤ length y)%nat → aligned u v l →
  ∃ S_x S_x2 S_y S_y2 M ml m0,
    calculate_metric_arrays x y = Some (S_x, S_x2, S_y, S_y2, M) ∧
    mat_get M (u + l) (v + l) = Some ml ∧
    mat_get M u v = Some m0 ∧
    ml - m0 = window_products x y u v l.
Proof.
  intros Hu Hv _.
  destruct (calculate_metric_arrays_closed_form x y) as (M & Hrun & _ & Hget).
  eexists _, _, _, _, M, _, _. split; [exact Hrun |].
  split; [apply Hget; lia |]. split; [apply Hget; lia |].
  apply diag_sum_window.
Qed.

Lemma M_window_sum_aligned_witness :
  ∃ S_x S_x2 S_y S_y2 M ml m0,
    calculate_metric_arrays [1; 2; 3] [4; 5] = Some (S_x, S_x2, S_y, S_y2, M) ∧
    mat_get M (1 + 2) (0 + 2) = Some ml ∧
    mat_get M 1 0 = Some m0 ∧
    ml - m0 = window_products [1; 2; 3] [4; 5] 1 0 2.
Proof.
  apply (M_window_sum_aligned [1; 2; 3] [4; 5] 1 0 2).
  - simpl. lia.
  - simpl. lia.
  - intros i Hi. unfold offset. lia.
Defined.

(** ** Sums, means and prefix sums *)

Lemma sum_app (a b : list R) : Np.sum (a ++ b) = Np.sum a + Np.sum b.
Proof.
  unfold Np.sum. induction a as [|r a IH]; simpl; lra.
Qed.

Lemma sum_cons (r : R) (a : list R) : Np.sum (r :: a) = r + Np.sum a.
Proof. done. Qed.

Lemma len_cons (r : R) (a : list R) : Np.len (r :: a) = Np.len a + 1.
Proof. unfold Np.len. simpl length. by rewrite S_INR. Qed.

Lemma len_pos (a : list R) : a ≠ [] → 0 < Np.len a.
Proof.
  intros Ha. unfold Np.len. apply lt_0_INR.
  destruct a; [done | simpl; lia].
Qed.

Lemma sum_sub_scalar (a : list R) (c : R) :
  Np.sum (Np.sub_scalar a c) = Np.sum a - Np.len a * c.
Proof.
  induction a as [|r a IH].
  - unfold Np.sum, Np.len. simpl. lra.
  - unfold Np.sub_scalar in *. rewrite fmap_cons, !sum_cons, len_cons, IH. lra.
Qed.

Lemma sum_div_scalar (a : list R) (c : R) :
  Np.sum (Np.div_scalar a c) = Np.sum a / c.
Proof.
  induction a as [|r a IH].
  - unfold Np.sum. simpl. lra.
  - unfold Np.div_scalar in *. rewrite fmap_cons, !sum_cons, IH. lra.
Qed.

Lemma sum_power2_sub_scalar (a : list R) (c : R) :
  Np.sum (Np.power2 (Np.sub_scalar a c)) =
  Np.sum (Np.power2 a) - 2 * c * Np.sum a + Np.len a * c ^ 2.
Proof.
  induction a as [|r a IH].
  - unfold Np.sum, Np.len. simpl. lra.
  - unfold Np.power2, Np.sub_scalar in *.
    rewrite !fmap_cons, !sum_cons, len_cons, IH. lra.
Qed.

Lemma sum_power2_div_scalar (a : list R) (c : R) :
  Np.sum (Np.power2 (Np.div_scalar a c)) = Np.sum (Np.power2 a) / c ^ 2.
Proof.
  induction a as [|r a IH].
  - unfold Np.sum. simpl. lra.
  - unfold Np.power2, Np.div_scalar in *.
    rewrite !fmap_cons, !sum_cons, IH. unfold Rdiv.
    rewrite Rpow_mult_distr, pow_inv. lra.
Qed.

Lemma sum_power2_nonneg (a : list R) : 0 <= Np.sum (Np.power2 a).
Proof.
  induction a as [|r a IH].
  - unfold Np.sum. simpl. lra.
  - unfold Np.power2 in *. rewrite fmap_cons, sum_cons.
    pose proof (pow2_ge_0 r). lra.
Qed.

Lemma len_sub_scalar (a : list R) (c : R) :
  Np.len (Np.sub_scalar a c) = Np.len a.
Proof. unfold Np.len, Np.sub_scalar. by rewrite length_fmap. Qed.

Lemma len_div_scalar (a : list R) (c : R) :
  Np.len (Np.div_scalar a c) = Np.len a.
Proof. unfold Np.len, Np.div_scalar. by rewrite length_fmap. Qed.

Lemma len_power2 (a : list R) : Np.len (Np.power2 a) = Np.len a.
Proof. unfold Np.len, Np.power2. by rewrite length_fmap. Qed.

(** The variance as [np.std] computes it is the mean of the squares minus
    the square of the mean. *)
Lemma variance_identity (a : list R) :
  Np.mean (Np.power2 (Np.sub_scalar a (Np.mean a))) =
  Np.sum (Np.power2 a) / Np.len a - Np.mean a ^ 2.
Proof.
  unfold Np.mean at 1.
  rewrite sum_power2_sub_scalar, len_power2, len_sub_scalar.
  destruct a as [|r a].
  - unfold Np.mean, Np.sum, Np.len. simpl. lra.
  - unfold Np.mean. pose proof (len_pos (r :: a)) as Hpos.
    field. apply Rgt_not_eq, Hpos. done.
Qed.

Lemma cumsum_from_lookup (acc : R) (a : list R) (k : nat) :
  (k < length a)%nat →
  Np.cumsum_from acc a !! k = Some (acc + Np.sum (take (S k) a)).
Proof.
  revert acc k. induction a as [|r a IH]; intros acc k Hk; [simpl in Hk; lia |].
  destruct k as [|k].
  - simpl. unfold Np.sum. simpl. f_equal. lra.
  - simpl in Hk. change (Np.cumsum_from acc (r :: a) !! S k)
      with (Np.cumsum_from (acc + r) a !! k).
    rewrite IH by lia. rewrite (firstn_cons (S k) r a), sum_cons. f_equal. lra.
Qed.

(** Entry [k] of a statistic array is the sum of the first [k] elements. *)
Lemma prefix_sum_lookup (a : list R) (k : nat) :
  (k ≤ length a)%nat →
  Np.append [0] (Np.cumsum a) !! k = Some (Np.sum (take k a)).
Proof.
  intros Hk. destruct k as [|k].
  - by rewrite take_0.
  - unfold Np.append, Np.cumsum. simpl.
    rewrite cumsum_from_lookup by lia. f_equal. lra.
Qed.

Lemma prefix_sum_window (a : list R) (u l : nat) :
  Np.sum (take (u + l) a) - Np.sum (take u a) = Np.sum (Np.slice a u l).
Proof. unfold Np.slice. rewrite <- take_take_drop, sum_app. lra. Qed.

Lemma length_slice (a : list R) (u l : nat) :
  (u + l ≤ length a)%nat → length (Np.slice a u l) = l.
Proof. intros H. unfold Np.slice. rewrite length_take, length_drop. lia. Qed.

Lemma power2_slice (a : list R) (u l : nat) :
  Np.power2 (Np.slice a u l) = Np.slice (Np.power2 a) u l.
Proof. unfold Np.power2, Np.slice. by rewrite fmap_take, fmap_drop. Qed.

Lemma nth_slice (a : list R) (u l i : nat) :
  (i < l)%nat → nth i (Np.slice a u l) 0 = nth (u + i) a 0.
Proof.
  intros Hi. unfold Np.slice.
  by rewrite !nth_lookup, lookup_take_lt, lookup_drop.
Qed.

Lemma big_sum_ext (l : nat) (f g : nat → R) :
  (∀ i, (i < l)%nat → f i = g i) → big_sum l f = big_sum l g.
Proof.
  induction l as [|l IH]; intros H; [done |].
  simpl. rewrite IH by (intros; apply H; lia). rewrite H by lia. done.
Qed.

Lemma big_sum_shift (l : nat) (f : nat → R) :
  big_sum (S l) f = f O + big_sum l (λ i, f (S i)).
Proof.
  induction l as [|l IH]; [simpl; lra |].
  change (big_sum (S (S l)) f) with (big_sum (S l) f + f (S l)).
  rewrite IH. simpl. lra.
Qed.

(** [np.sum(a * b)] of two arrays of one length, by index. *)
Lemma sum_zip_with_mul (a b : list R) :
  length a = length b →
  Np.sum (zip_with Rmult a b) =
  big_sum (length a) (λ i, nth i a 0 * nth i b 0).
Proof.
  revert b. induction a as [|r a IH]; intros [|s b] Hlen; try done.
  simpl in Hlen. simpl zip_with. simpl length.
  rewrite sum_cons, big_sum_shift, IH by lia. done.
Qed.

Lemma mul_same_length (a b : list R) :
  length a = length b → Np.mul a b = Some (zip_with Rmult a b).
Proof. intros H. unfold Np.mul, Np.broadcast. by rewrite decide_True. Qed.

Lemma sub_same_length (a b : list R) :
  length a = length b → Np.sub a b = Some (zip_with Rminus a b).
Proof. intros H. unfold Np.sub, Np.broadcast. by rewrite decide_True. Qed.

Lemma sum_mul_slices (x y : list R) (u v l : nat) :
  (u + l ≤ length x)%nat → (v + l ≤ length y)%nat →
  Np.sum (zip_with Rmult (Np.slice x u l) (Np.slice y v l)) =
  window_products x y u v l.
Proof.
  intros Hu Hv. rewrite sum_zip_with_mul by by rewrite !length_slice.
  rewrite length_slice by done. unfold window_products.
  apply big_sum_ext. intros i Hi. by rewrite !nth_slice.
Qed.

(** ** The statistic arrays against the direct computation *)

Lemma window_mean (a : list R) (u l : nat) :
  (u + l ≤ length a)%nat →
  (Np.sum (take (u + l) a) - Np.sum (take u a)) / INR l =
  Np.mean (Np.slice a u l).
Proof.
  intros H. rewrite prefix_sum_window. unfold Np.mean, Np.len.
  by rewrite length_slice.
Qed.

Lemma window_std (a : list R) (u l : nat) :
  (u + l ≤ length a)%nat →
  sqrt ((Np.sum (take (u + l) (Np.power2 a)) - Np.sum (take u (Np.power2 a)))
        / INR l - Np.mean (Np.slice a u l) ^ 2) =
  Np.std (Np.slice a u l).
Proof.
  intros H. unfold Np.std. rewrite variance_identity.
  rewrite prefix_sum_window, <- power2_slice. unfold Np.len.
  by rewrite length_slice.
Qed.



(** ** Normalisation *)

Lemma mean_nil : Np.mean [] = 0.
Proof. unfold Np.mean, Np.sum, Rdiv. simpl. apply Rmult_0_l. Qed.

Lemma std_nil : Np.std [] = 0.
Proof.
  unfold Np.std, Np.sub_scalar, Np.power2. simpl.
  rewrite mean_nil. apply sqrt_0.
Qed.

Lemma std_nonneg (a : list R) : 0 <= Np.std a.
Proof. apply sqrt_pos. Qed.

Lemma len_nonzero (a : list R) : Np.std a ≠ 0 → 0 < Np.len a.
Proof.
  intros H. apply len_pos. intros ->. by apply H, std_nil.
Qed.

Lemma sq_dev_nonneg (a : list R) : 0 <= sq_dev a.
Proof. apply sum_power2_nonneg. Qed.

Lemma std_sqr (a : list R) : 0 < Np.len a → Np.std a ^ 2 = sq_dev a / Np.len a.
Proof.
  intros Hn. unfold Np.std, Np.mean at 1.
  rewrite len_power2, len_sub_scalar. fold (sq_dev a).
  rewrite pow2_sqrt; [done |].
  apply Rmult_le_pos; [apply sq_dev_nonneg |].
  left. by apply Rinv_0_lt_compat.
Qed.

Lemma sum_centered (a : list R) :
  0 < Np.len a → Np.sum (Np.sub_scalar a (Np.mean a)) = 0.
Proof.
  intros Hn. rewrite sum_sub_scalar. unfold Np.mean. field. lra.
Qed.

Lemma mean_z_norm (a : list R) : Np.std a ≠ 0 → Np.mean (z_norm a) = 0.
Proof.
  intros Hs. pose proof (len_nonzero a Hs) as Hn.
  unfold Np.mean at 1, z_norm.
  rewrite sum_div_scalar, sum_centered by done.
  unfold Rdiv. by rewrite !Rmult_0_l.
Qed.

Lemma sum_power2_z_norm (a : list R) :
  Np.std a ≠ 0 → Np.sum (Np.power2 (z_norm a)) = Np.len a.
Proof.
  intros Hs. pose proof (len_nonzero a Hs) as Hn.
  unfold z_norm. rewrite sum_power2_div_scalar. fold (sq_dev a).
  rewrite std_sqr by done.
  assert (sq_dev a ≠ 0) as Hq.
  { intros Hq. apply Hs.
    assert (Np.std a ^ 2 = 0) as H2
      by (rewrite std_sqr by done; rewrite Hq; unfold Rdiv; apply Rmult_0_l).
    apply Rsqr_0_uniq. unfold Rsqr. lra. }
  field. split; lra.
Qed.

Lemma std_z_norm (a : list R) : Np.std a ≠ 0 → Np.std (z_norm a) = 1.
Proof.
  intros Hs. pose proof (len_nonzero a Hs) as Hn.
  unfold Np.std. rewrite variance_identity, mean_z_norm by done.
  rewrite sum_power2_z_norm by done.
  unfold z_norm. rewrite len_div_scalar, len_sub_scalar.
  replace (Np.len a / Np.len a - 0 ^ 2) with 1 by (field; lra).
  apply sqrt_1.
Qed.


Lemma sum_power2_zero (w : list R) :
  Np.sum (Np.power2 w) = 0 → ∀ i a, w !! i = Some a → a = 0.
Proof.
  induction w as [|r w IH]; intros Hsum i a Hi; [done |].
  unfold Np.power2 in *. rewrite fmap_cons, sum_cons in Hsum.
  pose proof (sum_power2_nonneg w) as Hw. unfold Np.power2 in Hw.
  pose proof (pow2_ge_0 r) as Hr.
  destruct i as [|i].
  - injection Hi as <-. apply Rsqr_0_uniq. unfold Rsqr. lra.
  - apply (IH ltac:(lra) i a Hi).
Qed.

(** In exact arithmetic a non-constant sequence has a non-zero standard
    deviation. *)
Lemma non_constant_std (a : list R) : non_constant a → Np.std a ≠ 0.
Proof.
  intros (i & j & p & q & Hi & Hj & Hpq) Hs.
  assert (0 < Np.len a) as Hn.
  { apply len_pos. intros ->. done. }
  assert (sq_dev a = 0) as Hq.
  { pose proof (std_sqr a Hn) as H2. rewrite Hs in H2.
    apply (Rmult_eq_compat_r (Np.len a)) in H2.
    unfold Rdiv in H2. rewrite Rmult_assoc, Rinv_l in H2 by lra. lra. }
  assert (∀ k r, a !! k = Some r → r = Np.mean a) as Hall.
  { intros k r Hk.
    assert (r - Np.mean a = 0); [| lra].
    apply (sum_power2_zero _ Hq k).
    unfold Np.sub_scalar. by rewrite list_lookup_fmap, Hk. }
  apply Hpq. by rewrite (Hall i p Hi), (Hall j q Hj).
Qed.

Lemma std_1_3 : Np.std [1; 3] ≠ 0.
Proof.
  apply non_constant_std. exists 0%nat, 1%nat, 1, 3.
  repeat split; try done. lra.
Qed.


Lemma sum_fmap_big_sum (f : R → R) (a : list R) :
  Np.sum (f <$> a) = big_sum (length a) (λ i, f (nth i a 0)).
Proof.
  induction a as [|r a IH]; [done |].
  rewrite fmap_cons, sum_cons, IH. simpl length.
  by rewrite big_sum_shift.
Qed.

Lemma sum_big_sum (a : list R) :
  Np.sum a = big_sum (length a) (λ i, nth i a 0).
Proof. rewrite <- (sum_fmap_big_sum id). by rewrite list_fmap_id. Qed.

Lemma mean_mean_spec (a : list R) : Np.mean a = mean_spec a.
Proof. unfold Np.mean, mean_spec, Np.len. by rewrite sum_big_sum. Qed.

Lemma std_pop_std_spec (a : list R) : Np.std a = pop_std_spec a.
Proof.
  unfold Np.std, pop_std_spec, Np.mean at 1.
  rewrite len_power2, len_sub_scalar. unfold Np.len.
  unfold Np.power2, Np.sub_scalar. rewrite <- list_fmap_compose.
  rewrite sum_fmap_big_sum. by rewrite mean_mean_spec.
Qed.

Lemma sum_power2_zip_minus (a b : list R) :
  length a = length b →
  Np.sum (Np.power2 (zip_with Rminus a b)) =
  big_sum (length a) (λ i, (nth i a 0 - nth i b 0) ^ 2).
Proof.
  revert b. induction a as [|r a IH]; intros [|s b] Hlen; try done.
  simpl in Hlen. simpl zip_with. simpl length. unfold Np.power2 in *.
  rewrite fmap_cons, sum_cons, big_sum_shift, IH by lia. done.
Qed.

Lemma INR_10 : INR 10 = 10.
Proof. simpl. lra. Qed.

(** C6: for [x] and [y] of one length [n], [norm_euclidean_distance(x, y)]
    returns [(1 / sqrt n) * ||x - y||_2]; for [x = [1]*10] and
    [y = [0]*10] it returns 1. *)
Theorem norm_euclidean_distance_spec :
  (∀ x y : list R, length x = length y →
     norm_euclidean_distance x y =
     Some (1 / sqrt (INR (length x)) * l2_diff_spec x y)) ∧
  norm_euclidean_distance (replicate 10 1) (replicate 10 0) = Some 1.
Proof.
  assert (∀ x y : list R, length x = length y →
            norm_euclidean_distance x y =
            Some (1 / sqrt (INR (length x)) * l2_diff_spec x y)) as Hgen.
  { intros x y Hlen. unfold norm_euclidean_distance.
    rewrite sub_same_length by done. simpl.
    unfold Np.linalg_norm, l2_diff_spec, Np.len.
    by rewrite sum_power2_zip_minus. }
  split; [exact Hgen |].
  rewrite Hgen by done. f_equal.
  unfold l2_diff_spec. rewrite length_replicate, INR_10.
  replace (big_sum 10 _) with 10 by (simpl; lra).
  assert (0 < sqrt 10) as Hpos by (apply sqrt_lt_R0; lra).
  field. lra.
Qed.

(** C7: for [x] and [y] of one length [m], [pearson(x, y)] returns
    [(Σ(x·y) − m·μx·μy) / (m·σx·σy)], with [μ] the mean and [σ] the
    population standard deviation of each sequence. *)
Theorem pearson_formula (x y : list R) :
  length x = length y →
  pearson x y =
  Some ((dot_spec x y - INR (length x) * mean_spec x * mean_spec y)
        / (INR (length x) * pop_std_spec x * pop_std_spec y)).
Proof.
  intros Hlen. unfold pearson.
  rewrite mul_same_length by done. simpl.
  rewrite sum_zip_with_mul by done.
  by rewrite !mean_mean_spec, !std_pop_std_spec.
Qed.

Lemma pearson_formula_witness :
  pearson [1; 2; 4] [3; 5; 4] =
  Some ((dot_spec [1; 2; 4] [3; 5; 4]
         - INR (length [1; 2; 4]) * mean_spec [1; 2; 4] * mean_spec [3; 5; 4])
        / (INR (length [1; 2; 4]) * pop_std_spec [1; 2; 4]
           * pop_std_spec [3; 5; 4])).
Proof. apply (pearson_formula [1; 2; 4] [3; 5; 4]). reflexivity. Defined.

(** ** Correlation *)

Lemma sum_zip_sub_scalars (a b : list R) (c d : R) :
  length a = length b →
  Np.sum (zip_with Rmult (Np.sub_scalar a c) (Np.sub_scalar b d)) =
  Np.sum (zip_with Rmult a b) - d * Np.sum a - c * Np.sum b
  + Np.len a * c * d.
Proof.
  revert b. induction a as [|r a IH]; intros [|s b] Hlen; try done.
  - unfold Np.sum, Np.len. simpl. lra.
  - simpl in Hlen. unfold Np.sub_scalar in *. rewrite !fmap_cons.
    simpl zip_with. rewrite !sum_cons, len_cons, IH by lia. lra.
Qed.

Lemma sum_zip_div_scalars (a b : list R) (c d : R) :
  Np.sum (zip_with Rmult (Np.div_scalar a c) (Np.div_scalar b d)) =
  Np.sum (zip_with Rmult a b) / (c * d).
Proof.
  revert b. induction a as [|r a IH]; intros [|s b];
    try (unfold Np.sum, Rdiv; simpl; by rewrite Rmult_0_l).
  unfold Np.div_scalar in *. rewrite !fmap_cons. simpl zip_with.
  rewrite !sum_cons, IH. unfold Rdiv. rewrite Rinv_mult. lra.
Qed.

Lemma sum_power2_zip_minus_expand (a b : list R) :
  length a = length b →
  Np.sum (Np.power2 (zip_with Rminus a b)) =
  Np.sum (Np.power2 a) + Np.sum (Np.power2 b)
  - 2 * Np.sum (zip_with Rmult a b).
Proof.
  revert b. induction a as [|r a IH]; intros [|s b] Hlen; try done.
  - unfold Np.sum. simpl. lra.
  - simpl in Hlen. unfold Np.power2 in *. simpl zip_with.
    rewrite !fmap_cons, !sum_cons, IH by lia. lra.
Qed.

(** Every quadratic [t² A + 2 t C + B] built from two sequences is
    non-negative. *)
Lemma quadratic_nonneg (a b : list R) (t : R) :
  0 <= t ^ 2 * Np.sum (Np.power2 a)
       + 2 * t * Np.sum (zip_with Rmult a b)
       + Np.sum (Np.power2 b).
Proof.
  revert b. induction a as [|r a IH]; intros b.
  - pose proof (sum_power2_nonneg b). unfold Np.sum at 1 2. simpl. lra.
  - destruct b as [|s b].
    + pose proof (sum_power2_nonneg (r :: a)). pose proof (pow2_ge_0 t).
      unfold Np.sum at 2 3. simpl foldr. nra.
    + specialize (IH b). unfold Np.power2 in *. simpl zip_with.
      rewrite !fmap_cons, !sum_cons.
      pose proof (pow2_ge_0 (t * r + s)). nra.
Qed.

Lemma discriminant (A B C : R) :
  0 <= A → (∀ t, 0 <= t ^ 2 * A + 2 * t * C + B) → C ^ 2 <= A * B.
Proof.
  intros HA Hq. destruct (Req_dec A 0) as [-> | HA0].
  - assert (C = 0) as ->.
    { destruct (Req_dec C 0) as [-> | HC]; [done |].
      specialize (Hq (- (B + 1) / (2 * C))). exfalso.
      replace (2 * (- (B + 1) / (2 * C)) * C) with (- (B + 1)) in Hq
        by (field; done).
      lra. }
    lra.
  - specialize (Hq (- C / A)).
    replace ((- C / A) ^ 2 * A + 2 * (- C / A) * C + B)
      with ((A * B - C ^ 2) / A) in Hq by (field; done).
    assert (0 < A) as Hpos by lra.
    assert (0 <= (A * B - C ^ 2) / A * A) as H
      by (apply Rmult_le_pos; lra).
    replace ((A * B - C ^ 2) / A * A) with (A * B - C ^ 2) in H
      by (field; done).
    lra.
Qed.

(** The Cauchy–Schwarz inequality for [np.sum(a * b)]. *)
Lemma cauchy_schwarz (a b : list R) :
  Np.sum (zip_with Rmult a b) ^ 2 <=
  Np.sum (Np.power2 a) * Np.sum (Np.power2 b).
Proof.
  apply discriminant; [apply sum_power2_nonneg |].
  intros t. apply quadratic_nonneg.
Qed.

Lemma len_eq (x y : list R) : length x = length y → Np.len y = Np.len x.
Proof. intros H. unfold Np.len. by rewrite H. Qed.

Lemma cross_dev_eq (x y : list R) :
  length x = length y → 0 < Np.len x →
  cross_dev x y =
  Np.sum (zip_with Rmult x y) - Np.len x * Np.mean x * Np.mean y.
Proof.
  intros Hlen Hn. unfold cross_dev. rewrite sum_zip_sub_scalars by done.
  unfold Np.mean. rewrite (len_eq x y Hlen). field. lra.
Qed.

Lemma pearson_value (x y : list R) :
  length x = length y →
  pearson x y =
  Some ((Np.sum (zip_with Rmult x y) - Np.len x * Np.mean x * Np.mean y)
        / (Np.len x * Np.std x * Np.std y)).
Proof. intros Hlen. unfold pearson. by rewrite mul_same_length. Qed.

Lemma cross_dev_bound (x y : list R) :
  cross_dev x y ^ 2 <= sq_dev x * sq_dev y.
Proof. apply cauchy_schwarz. Qed.

Lemma denominator_sqr (x y : list R) :
  length x = length y → 0 < Np.len x →
  (Np.len x * Np.std x * Np.std y) ^ 2 = sq_dev x * sq_dev y.
Proof.
  intros Hlen Hn.
  replace ((Np.len x * Np.std x * Np.std y) ^ 2)
    with (Np.len x ^ 2 * Np.std x ^ 2 * Np.std y ^ 2) by ring.
  rewrite !std_sqr by (rewrite ?(len_eq x y Hlen); done).
  rewrite (len_eq x y Hlen). field. lra.
Qed.

Lemma ratio_bound (c d : R) : 0 < d → c ^ 2 <= d ^ 2 → -1 <= c / d <= 1.
Proof.
  intros Hd Hc. assert (- d <= c <= d) as [Hlo Hhi] by nra.
  split.
  - apply (Rmult_le_reg_r d); [done |].
    replace (c / d * d) with c by (field; lra). lra.
  - apply (Rmult_le_reg_r d); [done |].
    replace (c / d * d) with c by (field; lra). lra.
Qed.

Lemma pearson_bounds (x y : list R) :
  length x = length y → Np.std x ≠ 0 → Np.std y ≠ 0 →
  -1 <= (Np.sum (zip_with Rmult x y) - Np.len x * Np.mean x * Np.mean y)
        / (Np.len x * Np.std x * Np.std y) <= 1.
Proof.
  intros Hlen Hsx Hsy. pose proof (len_nonzero x Hsx) as Hn.
  pose proof (std_nonneg x). pose proof (std_nonneg y).
  rewrite <- cross_dev_eq by done. apply ratio_bound.
  - apply Rmult_lt_0_compat; [apply Rmult_lt_0_compat |]; lra.
  - rewrite denominator_sqr by done. apply cross_dev_bound.
Qed.

(** C8: for [x] and [y] of one length with non-zero standard deviations,
    in exact arithmetic [pearson(x, y)] lies in [[-1, 1]], and
    [pearson_dist(x, y)] is the square root of the non-negative number
    [2 * (1 - pearson(x, y))], hence non-negative. *)
Theorem pearson_range (x y : list R) :
  length x = length y → Np.std x ≠ 0 → Np.std y ≠ 0 →
  ∃ p d,
    pearson x y = Some p ∧ -1 <= p <= 1 ∧
    pearson_dist x y = Some d ∧ d = sqrt (2 * (1 - p)) ∧
    0 <= 2 * (1 - p) ∧ 0 <= d.
Proof.
  intros Hlen Hsx Hsy.
  pose proof (pearson_bounds x y Hlen Hsx Hsy) as Hp.
  eexists _, _. split; [by apply pearson_value |]. split; [exact Hp |].
  split; [unfold pearson_dist; by rewrite pearson_value |].
  split; [done |]. split; [lra | apply sqrt_pos].
Qed.

Lemma std_2_6 : Np.std [2; 6] ≠ 0.
Proof.
  apply non_constant_std. exists 0%nat, 1%nat, 2, 6.
  repeat split; try done. lra.
Qed.

Lemma pearson_range_witness :
  ∃ p d,
    pearson [1; 3] [2; 6] = Some p ∧ -1 <= p <= 1 ∧
    pearson_dist [1; 3] [2; 6] = Some d ∧ d = sqrt (2 * (1 - p)) ∧
    0 <= 2 * (1 - p) ∧ 0 <= d.
Proof.
  apply (pearson_range [1; 3] [2; 6]);
    [reflexivity | exact std_1_3 | exact std_2_6].
Defined.

Lemma sum_zip_z_norm (x y : list R) :
  Np.sum (zip_with Rmult (z_norm x) (z_norm y)) =
  cross_dev x y / (Np.std x * Np.std y).
Proof. unfold z_norm. by rewrite sum_zip_div_scalars. Qed.

Lemma len_z_norm (x : list R) : Np.len (z_norm x) = Np.len x.
Proof. unfold z_norm. by rewrite len_div_scalar, len_sub_scalar. Qed.

(** C4: for equal-length non-constant [x] and [y],
    [norm_euclidean_distance(z_norm(x), z_norm(y))] is
    [pearson_dist(x, y) = sqrt(2 * (1 - pearson(x, y)))] in exact
    arithmetic. *)
Theorem z_norm_distance_is_pearson_dist (x y : list R) :
  length x = length y → non_constant x → non_constant y →
  ∃ p,
    pearson x y = Some p ∧
    pearson_dist x y = Some (sqrt (2 * (1 - p))) ∧
    norm_euclidean_distance (z_norm x) (z_norm y) =
    Some (sqrt (2 * (1 - p))).
Proof.
  intros Hlen Hx Hy.
  pose proof (non_constant_std x Hx) as Hsx.
  pose proof (non_constant_std y Hy) as Hsy.
  pose proof (len_nonzero x Hsx) as Hn.
  pose proof (std_nonneg x). pose proof (std_nonneg y).
  eexists. split; [by apply pearson_value |].
  split; [unfold pearson_dist; by rewrite pearson_value |].
  assert (length (z_norm x) = length (z_norm y)) as Hzlen.
  { unfold z_norm, Np.div_scalar, Np.sub_scalar. by rewrite !length_fmap. }
  unfold norm_euclidean_distance. rewrite sub_same_length by done. simpl.
  f_equal. unfold Np.linalg_norm.
  rewrite sum_power2_zip_minus_expand by done.
  rewrite !sum_power2_z_norm by done. rewrite (len_eq x y Hlen).
  rewrite sum_zip_z_norm, cross_dev_eq, len_z_norm by done.
  set (c := Np.sum (zip_with Rmult x y) - Np.len x * Np.mean x * Np.mean y).
  replace (Np.len x + Np.len x - 2 * (c / (Np.std x * Np.std y)))
    with (Np.len x * (2 * (1 - c / (Np.len x * Np.std x * Np.std y))))
    by (field; lra).
  rewrite sqrt_mult_alt by lra.
  assert (0 < sqrt (Np.len x)) as Hs by (by apply sqrt_lt_R0).
  field. lra.
Qed.

Lemma non_constant_1_3 : non_constant [1; 3].
Proof. exists 0%nat, 1%nat, 1, 3. repeat split; try done. lra. Qed.

Lemma non_constant_2_6 : non_constant [2; 6].
Proof. exists 0%nat, 1%nat, 2, 6. repeat split; try done. lra. Qed.

Lemma z_norm_distance_is_pearson_dist_witness :
  ∃ p,
    pearson [1; 3] [2; 6] = Some p ∧
    pearson_dist [1; 3] [2; 6] = Some (sqrt (2 * (1 - p))) ∧
    norm_euclidean_distance (z_norm [1; 3]) (z_norm [2; 6]) =
    Some (sqrt (2 * (1 - p))).
Proof.
  apply (z_norm_distance_is_pearson_dist [1; 3] [2; 6]);
    [reflexivity | exact non_constant_1_3 | exact non_constant_2_6].
Defined.

(** ** Further properties of the statistic arrays *)

Lemma length_cumsum_from (acc : R) (a : list R) :
  length (Np.cumsum_from acc a) = length a.
Proof.
  revert acc. induction a as [|r a IH]; intros acc; [done |].
  simpl. by rewrite IH.
Qed.

Lemma length_prefix_sums (a : list R) :
  length (Np.append [0] (Np.cumsum a)) = (length a + 1)%nat.
Proof.
  unfold Np.append, Np.cumsum. simpl. rewrite length_cumsum_from. lia.
Qed.

Lemma sum_take_big_sum (f : R → R) (a : list R) (k : nat) :
  (k ≤ length a)%nat →
  Np.sum (take k (f <$> a)) = big_sum k (λ i, f (nth i a 0)).
Proof.
  intros Hk. rewrite <- fmap_take, sum_fmap_big_sum, length_take_le by done.
  apply big_sum_ext. intros i Hi.
  by rewrite !nth_lookup, lookup_take_lt.
Qed.

(** X1: entry [k] of [S_x] is the sum of the first [k] elements of [x], entry
    [k] of [S_x2] the sum of their squares; each array has one entry more
    than its sequence.  The same holds of [S_y] and [S_y2]. *)
Theorem statistic_arrays_are_prefix_sums (x y : list R) :
  ∃ S_x S_x2 S_y S_y2 M,
    calculate_metric_arrays x y = Some (S_x, S_x2, S_y, S_y2, M) ∧
    length S_x = (length x + 1)%nat ∧ length S_x2 = (length x + 1)%nat ∧
    length S_y = (length y + 1)%nat ∧ length S_y2 = (length y + 1)%nat ∧
    (∀ k, (k ≤ length x)%nat →
       S_x !! k = Some (big_sum k (λ i, nth i x 0)) ∧
       S_x2 !! k = Some (big_sum k (λ i, nth i x 0 ^ 2))) ∧
    (∀ k, (k ≤ length y)%nat →
       S_y !! k = Some (big_sum k (λ i, nth i y 0)) ∧
       S_y2 !! k = Some (big_sum k (λ i, nth i y 0 ^ 2))).
Proof.
  destruct (calculate_metric_arrays_closed_form x y) as (M & Hrun & _).
  assert (∀ (a : list R) k, (k ≤ length a)%nat →
            Np.append [0] (Np.cumsum a) !! k =
              Some (big_sum k (λ i, nth i a 0)) ∧
            Np.append [0] (Np.cumsum (Np.power2 a)) !! k =
              Some (big_sum k (λ i, nth i a 0 ^ 2))) as Hpre.
  { intros a k Hk. split.
    - rewrite prefix_sum_lookup by done. f_equal.
      rewrite <- (list_fmap_id a) at 1. by rewrite (sum_take_big_sum id).
    - rewrite prefix_sum_lookup
        by (unfold Np.power2; rewrite length_fmap; done).
      f_equal. by apply (sum_take_big_sum (λ r, r ^ 2)). }
  eexists _, _, _, _, M. split; [exact Hrun |].
  rewrite !length_prefix_sums. unfold Np.power2. rewrite !length_fmap.
  repeat split; try done; by apply Hpre.
Qed.

(** The statistic-array correlation on the arrays of [x] and [y], given
    the closed form of [M]. *)
Lemma pearson_metrics_on_arrays (x y : list R) (M : matrix) (u v l : nat) :
  (∀ i j, (i ≤ length x)%nat → (j ≤ length y)%nat →
     mat_get M i j = Some (diag_sum x y i j)) →
  (u + l ≤ length x)%nat → (v + l ≤ length y)%nat →
  pearson_metrics u v l (Np.append [0] (Np.cumsum x))
    (Np.append [0] (Np.cumsum (Np.power2 x)))
    (Np.append [0] (Np.cumsum y))
    (Np.append [0] (Np.cumsum (Np.power2 y))) M =
  pearson (Np.slice x u l) (Np.slice y v l).
Proof.
  intros Hget Hu Hv. unfold pearson_metrics, pearson.
  rewrite !prefix_sum_lookup
    by (unfold Np.power2; rewrite ?length_fmap; lia).
  rewrite !Hget by lia. simpl.
  rewrite mul_same_length by by rewrite !length_slice. simpl.
  rewrite !window_mean, !window_std by done.
  rewrite diag_sum_window, <- sum_mul_slices by done.
  unfold Np.len at 1 2. by rewrite length_slice.
Qed.

Lemma pearson_metrics_no_S_x (u v l : nat) (S_x S_x2 S_y S_y2 : list R)
    (M : matrix) :
  S_x !! (u + l)%nat = None →
  pearson_metrics u v l S_x S_x2 S_y S_y2 M = None.
Proof. intros H. unfold pearson_metrics. by rewrite H. Qed.

Lemma pearson_metrics_no_S_y (u v l : nat) (S_x S_x2 S_y S_y2 : list R)
    (M : matrix) :
  S_y !! (v + l)%nat = None →
  pearson_metrics u v l S_x S_x2 S_y S_y2 M = None.
Proof.
  intros H. unfold pearson_metrics.
  destruct (S_x !! (u + l)%nat) as [sxl|]; [| done].
  destruct (S_x !! u) as [sx|]; [| done]. simpl. by rewrite H.
Qed.

(** X2: on the arrays of [calculate_metric_arrays(x, y)], [pearson_metrics] and
    [pearson_dist_metrics] raise [IndexError] exactly when the window runs
    past the end of [x] or of [y]. *)
Theorem pearson_metrics_raises_iff_out_of_range (x y : list R) (u v l : nat) :
  ∃ S_x S_x2 S_y S_y2 M,
    calculate_metric_arrays x y = Some (S_x, S_x2, S_y, S_y2, M) ∧
    (pearson_metrics u v l S_x S_x2 S_y S_y2 M = None ↔
     (length x < u + l ∨ length y < v + l)%nat) ∧
    (pearson_dist_metrics u v l S_x S_x2 S_y S_y2 M = None ↔
     (length x < u + l ∨ length y < v + l)%nat).
Proof.
  destruct (calculate_metric_arrays_closed_form x y) as (M & Hrun & _ & Hget).
  eexists _, _, _, _, M. split; [exact Hrun |].
  assert (pearson_metrics u v l (Np.append [0] (Np.cumsum x))
            (Np.append [0] (Np.cumsum (Np.power2 x)))
            (Np.append [0] (Np.cumsum y))
            (Np.append [0] (Np.cumsum (Np.power2 y))) M = None ↔
          (length x < u + l ∨ length y < v + l)%nat) as Hiff.
  { split.
    - intros Hnone.
      destruct (decide (u + l ≤ length x)%nat) as [Hu |]; [| lia].
      destruct (decide (v + l ≤ length y)%nat) as [Hv |]; [| lia].
      rewrite (pearson_metrics_on_arrays x y M u v l Hget Hu Hv) in Hnone.
      unfold pearson in Hnone.
      rewrite mul_same_length in Hnone by by rewrite !length_slice.
      done.
    - intros [Hx | Hy].
      + apply pearson_metrics_no_S_x, lookup_ge_None_2.
        rewrite length_prefix_sums. lia.
      + apply pearson_metrics_no_S_y, lookup_ge_None_2.
        rewrite length_prefix_sums. lia. }
  split; [exact Hiff |].
  unfold pearson_dist_metrics. rewrite <- Hiff.
  destruct (pearson_metrics _ _ _ _ _ _ _ _); simpl; split; done.
Qed.

Lemma diag_sum_0_l (x y : list R) (v : nat) : diag_sum x y 0 v = 0.
Proof. done. Qed.

(** X3: every entry [M[i, j]] is the sum of the products [x[a] * y[b]] along
    the diagonal that ends just before [(i, j)] and starts on row 0 or
    column 0. *)
Theorem M_entry_is_diagonal_sum (x y : list R) :
  ∃ S_x S_x2 S_y S_y2 M,
    calculate_metric_arrays x y = Some (S_x, S_x2, S_y, S_y2, M) ∧
    ∀ i j, (i ≤ length x)%nat → (j ≤ length y)%nat →
      mat_get M i j =
      Some (window_products x y (i - i `min` j) (j - i `min` j) (i `min` j)).
Proof.
  destruct (calculate_metric_arrays_closed_form x y) as (M & Hrun & _ & Hget).
  eexists _, _, _, _, M. split; [exact Hrun |].
  intros i j Hi Hj. rewrite Hget by done. f_equal.
  rewrite <- diag_sum_window.
  replace (i - i `min` j + i `min` j)%nat with i by lia.
  replace (j - i `min` j + i `min` j)%nat with j by lia.
  destruct (decide (i ≤ j)%nat).
  - replace (i - i `min` j)%nat with 0%nat by lia.
    rewrite diag_sum_0_l. lra.
  - replace (j - i `min` j)%nat with 0%nat by lia.
    rewrite diag_sum_0_r. lra.
Qed.

(** ** Further properties of the correlation and of the distances *)

Lemma sum_zip_mul_comm (a b : list R) :
  Np.sum (zip_with Rmult a b) = Np.sum (zip_with Rmult b a).
Proof.
  revert b. induction a as [|r a IH]; intros [|s b]; try done.
  simpl zip_with. rewrite !sum_cons, IH. lra.
Qed.

Lemma sum_power2_zip_minus_comm (a b : list R) :
  Np.sum (Np.power2 (zip_with Rminus a b)) =
  Np.sum (Np.power2 (zip_with Rminus b a)).
Proof.
  revert b. induction a as [|r a IH]; intros [|s b]; try done.
  unfold Np.power2 in *. simpl zip_with.
  rewrite !fmap_cons, !sum_cons, IH. lra.
Qed.

Lemma sum_zip_mul_self (a : list R) :
  Np.sum (zip_with Rmult a a) = Np.sum (Np.power2 a).
Proof.
  induction a as [|r a IH]; [done |].
  unfold Np.power2 in *. simpl zip_with.
  rewrite fmap_cons, !sum_cons, IH. lra.
Qed.

(** X4: for two sequences of one length, [pearson], [pearson_dist] and
    [norm_euclidean_distance] do not depend on the order of their
    arguments. *)
Theorem metrics_are_symmetric (x y : list R) :
  length x = length y →
  pearson x y = pearson y x ∧
  pearson_dist x y = pearson_dist y x ∧
  norm_euclidean_distance x y = norm_euclidean_distance y x.
Proof.
  intros Hlen.
  assert (pearson x y = pearson y x) as Hp.
  { rewrite !pearson_value by done.
    rewrite (sum_zip_mul_comm y x), (len_eq x y Hlen).
    do 2 f_equal; ring. }
  split; [exact Hp |]. split.
  - unfold pearson_dist. by rewrite Hp.
  - unfold norm_euclidean_distance.
    rewrite !sub_same_length by done. simpl.
    unfold Np.linalg_norm.
    by rewrite (sum_power2_zip_minus_comm y x), (len_eq x y Hlen).
Qed.

Lemma metrics_are_symmetric_witness :
  pearson [1; 2; 4] [3; 5; 4] = pearson [3; 5; 4] [1; 2; 4] ∧
  pearson_dist [1; 2; 4] [3; 5; 4] = pearson_dist [3; 5; 4] [1; 2; 4] ∧
  norm_euclidean_distance [1; 2; 4] [3; 5; 4] =
  norm_euclidean_distance [3; 5; 4] [1; 2; 4].
Proof. apply (metrics_are_symmetric [1; 2; 4] [3; 5; 4]). reflexivity. Defined.

Lemma sq_dev_nonzero (x : list R) : Np.std x ≠ 0 → 0 < sq_dev x.
Proof.
  intros Hs. pose proof (len_nonzero x Hs) as Hn.
  pose proof (sq_dev_nonneg x) as Hq.
  destruct (Req_dec (sq_dev x) 0) as [H0 | H0]; [| lra].
  exfalso. apply Hs.
  assert (Np.std x ^ 2 = 0) as H2
    by (rewrite std_sqr by done; rewrite H0; unfold Rdiv; apply Rmult_0_l).
  apply Rsqr_0_uniq. unfold Rsqr. lra.
Qed.

(** X5: a sequence with a non-zero standard deviation has correlation 1 and
    correlation distance 0 with itself. *)
Theorem pearson_self (x : list R) :
  Np.std x ≠ 0 → pearson x x = Some 1 ∧ pearson_dist x x = Some 0.
Proof.
  intros Hs. pose proof (len_nonzero x Hs) as Hn.
  pose proof (sq_dev_nonzero x Hs) as Hq.
  assert (pearson x x = Some 1) as Hp.
  { rewrite pearson_value by done. f_equal.
    rewrite <- cross_dev_eq by done.
    unfold cross_dev. rewrite sum_zip_mul_self. fold (sq_dev x).
    replace (Np.len x * Np.std x * Np.std x)
      with (Np.len x * Np.std x ^ 2) by ring.
    rewrite std_sqr by done. field. lra. }
  split; [exact Hp |].
  unfold pearson_dist. rewrite Hp. simpl. f_equal.
  replace (2 * (1 - 1)) with 0 by ring. apply sqrt_0.
Qed.

Lemma pearson_self_witness :
  pearson [1; 3] [1; 3] = Some 1 ∧ pearson_dist [1; 3] [1; 3] = Some 0.
Proof. apply (pearson_self [1; 3]). exact std_1_3. Defined.

Lemma zip_minus_zero (a b : list R) :
  length a = length b →
  Np.sum (Np.power2 (zip_with Rminus a b)) = 0 → a = b.
Proof.
  revert b. induction a as [|r a IH]; intros [|s b] Hlen Hsum; try done.
  simpl in Hlen. unfold Np.power2 in *. simpl zip_with in Hsum.
  rewrite fmap_cons, sum_cons in Hsum.
  pose proof (sum_power2_nonneg (zip_with Rminus a b)) as Hrest.
  unfold Np.power2 in Hrest.
  pose proof (pow2_ge_0 (r - s)) as Hhead.
  assert (r - s = 0) as Hrs
    by (apply Rsqr_0_uniq; unfold Rsqr; lra).
  f_equal; [lra |]. apply IH; [lia | lra].
Qed.

Lemma zip_minus_self (a : list R) :
  Np.sum (Np.power2 (zip_with Rminus a a)) = 0.
Proof.
  induction a as [|r a IH]; [done |].
  unfold Np.power2 in *. simpl zip_with.
  rewrite fmap_cons, sum_cons, IH. ring.
Qed.

(** X6: in exact arithmetic, for two non-empty sequences of one length,
    [norm_euclidean_distance] is non-negative and is zero exactly when the
    sequences are equal. *)
Theorem norm_euclidean_distance_zero_iff (x y : list R) :
  length x = length y → x ≠ [] →
  ∃ d, norm_euclidean_distance x y = Some d ∧ 0 <= d ∧ (d = 0 ↔ x = y).
Proof.
  intros Hlen Hne. pose proof (len_pos x Hne) as Hn.
  assert (0 < sqrt (Np.len x)) as Hs by (by apply sqrt_lt_R0).
  assert (0 < 1 / sqrt (Np.len x)) as Hc
    by (apply Rdiv_lt_0_compat; lra).
  unfold norm_euclidean_distance. rewrite sub_same_length by done. simpl.
  eexists. split; [done |].
  pose proof (sqrt_pos (Np.sum (Np.power2 (zip_with Rminus x y)))) as Hnorm.
  unfold Np.linalg_norm. split; [apply Rmult_le_pos; lra |]. split.
  - intros Hd. apply Rmult_integral in Hd as [Hd | Hd]; [lra |].
    apply zip_minus_zero; [done |].
    apply sqrt_eq_0; [apply sum_power2_nonneg | done].
  - intros <-. rewrite zip_minus_self, sqrt_0. ring.
Qed.

Lemma norm_euclidean_distance_zero_iff_witness :
  ∃ d, norm_euclidean_distance [1; 2] [3; 5] = Some d ∧ 0 <= d ∧
       (d = 0 ↔ [1; 2] = [3; 5]).
Proof.
  apply (norm_euclidean_distance_zero_iff [1; 2] [3; 5]);
    [reflexivity | discriminate].
Defined.

Lemma sum_power2_zip_minus_split (a b c : list R) :
  length a = length b → length b = length c →
  Np.sum (Np.power2 (zip_with Rminus a c)) =
  Np.sum (Np.power2 (zip_with Rminus a b))
  + 2 * Np.sum (zip_with Rmult (zip_with Rminus a b) (zip_with Rminus b c))
  + Np.sum (Np.power2 (zip_with Rminus b c)).
Proof.
  revert b c. induction a as [|r a IH]; intros [|s b] [|t c] Hab Hbc;
    try done.
  - unfold Np.sum. simpl. lra.
  - simpl in Hab, Hbc. unfold Np.power2 in *. simpl zip_with.
    rewrite !fmap_cons, !sum_cons, (IH b c) by lia. lra.
Qed.

(** The triangle inequality of the 2-norm, from Cauchy–Schwarz. *)
Lemma norm_triangle (A B C : R) :
  0 <= A → 0 <= B → C ^ 2 <= A * B →
  sqrt (A + 2 * C + B) <= sqrt A + sqrt B.
Proof.
  intros HA HB HC.
  pose proof (sqrt_pos A) as HsA. pose proof (sqrt_pos B) as HsB.
  pose proof (sqrt_sqrt A HA) as HAA. pose proof (sqrt_sqrt B HB) as HBB.
  assert (C <= sqrt A * sqrt B) as Hle.
  { destruct (Rle_dec C 0) as [Hneg | Hpos].
    - pose proof (Rmult_le_pos _ _ HsA HsB). lra.
    - apply Rnot_le_lt in Hpos.
      destruct (Rle_dec C (sqrt A * sqrt B)) as [| Hgt]; [done |].
      apply Rnot_le_lt in Hgt. exfalso.
      assert ((sqrt A * sqrt B) ^ 2 = A * B) as Hsq by nra.
      pose proof (Rmult_le_pos _ _ HsA HsB). nra. }
  rewrite <- (sqrt_pow2 (sqrt A + sqrt B)) by lra.
  apply sqrt_le_1_alt. nra.
Qed.

(** X7: in exact arithmetic, for three sequences of one non-zero length,
    [norm_euclidean_distance] satisfies the triangle inequality. *)
Theorem norm_euclidean_distance_triangle (x y z : list R) :
  length x = length y → length y = length z → x ≠ [] →
  ∃ dxz dxy dyz,
    norm_euclidean_distance x z = Some dxz ∧
    norm_euclidean_distance x y = Some dxy ∧
    norm_euclidean_distance y z = Some dyz ∧
    dxz <= dxy + dyz.
Proof.
  intros Hxy Hyz Hne. pose proof (len_pos x Hne) as Hn.
  assert (0 < sqrt (Np.len x)) as Hs by (by apply sqrt_lt_R0).
  assert (0 < 1 / sqrt (Np.len x)) as Hc
    by (apply Rdiv_lt_0_compat; lra).
  unfold norm_euclidean_distance.
  rewrite !sub_same_length by congruence. simpl.
  eexists _, _, _. split; [done |]. split; [done |]. split; [done |].
  rewrite (len_eq x y Hxy). unfold Np.linalg_norm.
  rewrite (sum_power2_zip_minus_split x y z) by done.
  rewrite <- Rmult_plus_distr_l. apply Rmult_le_compat_l; [lra |].
  apply norm_triangle;
    [apply sum_power2_nonneg | apply sum_power2_nonneg | apply cauchy_schwarz].
Qed.

Lemma norm_euclidean_distance_triangle_witness :
  ∃ dxz dxy dyz,
    norm_euclidean_distance [1; 2] [0; 7] = Some dxz ∧
    norm_euclidean_distance [1; 2] [3; 5] = Some dxy ∧
    norm_euclidean_distance [3; 5] [0; 7] = Some dyz ∧
    dxz <= dxy + dyz.
Proof.
  apply (norm_euclidean_distance_triangle [1; 2] [3; 5] [0; 7]);
    [reflexivity | reflexivity | discriminate].
Defined.

(** ** Further properties of the normalisation *)

(** X8: normalising a normalised sequence changes nothing. *)
Theorem z_norm_idempotent (x : list R) :
  Np.std x ≠ 0 → z_norm (z_norm x) = z_norm x.
Proof.
  intros Hs. unfold z_norm at 1.
  rewrite mean_z_norm, std_z_norm by done.
  unfold Np.div_scalar, Np.sub_scalar. rewrite <- list_fmap_compose.
  rewrite <- (list_fmap_id (z_norm x)) at 2.
  apply list_fmap_ext. intros i a _. simpl. field.
Qed.

Lemma z_norm_idempotent_witness : z_norm (z_norm [1; 3]) = z_norm [1; 3].
Proof. apply (z_norm_idempotent [1; 3]). exact std_1_3. Defined.

(** X9: the correlation of two sequences is the correlation of their
    normalisations. *)
Theorem pearson_of_z_norm (x y : list R) :
  length x = length y → Np.std x ≠ 0 → Np.std y ≠ 0 →
  pearson (z_norm x) (z_norm y) = pearson x y.
Proof.
  intros Hlen Hsx Hsy. pose proof (len_nonzero x Hsx) as Hn.
  assert (length (z_norm x) = length (z_norm y)) as Hzlen.
  { unfold z_norm, Np.div_scalar, Np.sub_scalar. by rewrite !length_fmap. }
  rewrite !pearson_value by done. f_equal.
  rewrite sum_zip_z_norm, cross_dev_eq, len_z_norm by done.
  rewrite !mean_z_norm, !std_z_norm by done.
  field. repeat split; lra.
Qed.

Lemma pearson_of_z_norm_witness :
  pearson (z_norm [1; 3]) (z_norm [2; 6]) = pearson [1; 3] [2; 6].
Proof.
  apply (pearson_of_z_norm [1; 3] [2; 6]);
    [reflexivity | exact std_1_3 | exact std_2_6].
Defined.

(** X10: for two sequences of one length with non-zero standard deviations,
    [pearson_dist] lies in [[0, 2]] and determines the correlation:
    [pearson = 1 - pearson_dist² / 2]. *)
Theorem pearson_dist_range (x y : list R) :
  length x = length y → Np.std x ≠ 0 → Np.std y ≠ 0 →
  ∃ p d,
    pearson x y = Some p ∧ pearson_dist x y = Some d ∧
    0 <= d <= 2 ∧ p = 1 - d ^ 2 / 2.
Proof.
  intros Hlen Hsx Hsy.
  pose proof (pearson_bounds x y Hlen Hsx Hsy) as Hp.
  eexists _, _. split; [by apply pearson_value |].
  split; [unfold pearson_dist; by rewrite pearson_value |].
  set (p := (_ - _) / _) in *. split; [split |].
  - apply sqrt_pos.
  - apply Rle_trans with (sqrt 4); [apply sqrt_le_1_alt; lra |].
    replace 4 with (2 * 2) by ring. rewrite sqrt_square; lra.
  - rewrite pow2_sqrt by lra. lra.
Qed.

Lemma pearson_dist_range_witness :
  ∃ p d,
    pearson [1; 3] [2; 6] = Some p ∧ pearson_dist [1; 3] [2; 6] = Some d ∧
    0 <= d <= 2 ∧ p = 1 - d ^ 2 / 2.
Proof.
  apply (pearson_dist_range [1; 3] [2; 6]);
    [reflexivity | exact std_1_3 | exact std_2_6].
Defined.

Lemma mean_sub_scalar (x : list R) (b : R) :
  x ≠ [] → Np.mean (Np.sub_scalar x b) = Np.mean x - b.
Proof.
  intros Hne. pose proof (len_pos x Hne).
  unfold Np.mean. rewrite sum_sub_scalar, len_sub_scalar. field. lra.
Qed.

Lemma centre_sub_scalar (x : list R) (b : R) :
  x ≠ [] →
  Np.sub_scalar (Np.sub_scalar x b) (Np.mean (Np.sub_scalar x b)) =
  Np.sub_scalar x (Np.mean x).
Proof.
  intros Hne. rewrite mean_sub_scalar by done.
  unfold Np.sub_scalar. rewrite <- list_fmap_compose.
  apply list_fmap_ext. intros i a _. simpl. ring.
Qed.

Lemma mean_div_scalar (x : list R) (c : R) :
  x ≠ [] → c ≠ 0 → Np.mean (Np.div_scalar x c) = Np.mean x / c.
Proof.
  intros Hne Hc. pose proof (len_pos x Hne).
  unfold Np.mean. rewrite sum_div_scalar, len_div_scalar. field. lra.
Qed.

Lemma centre_div_scalar (x : list R) (c : R) :
  x ≠ [] → c ≠ 0 →
  Np.sub_scalar (Np.div_scalar x c) (Np.mean (Np.div_scalar x c)) =
  Np.div_scalar (Np.sub_scalar x (Np.mean x)) c.
Proof.
  intros Hne Hc. rewrite mean_div_scalar by done.
  unfold Np.sub_scalar, Np.div_scalar. rewrite <- !list_fmap_compose.
  apply list_fmap_ext. intros i a _. simpl. field. done.
Qed.

Lemma std_div_scalar (x : list R) (c : R) :
  x ≠ [] → 0 < c → Np.std (Np.div_scalar x c) = Np.std x / c.
Proof.
  intros Hne Hc. pose proof (len_pos x Hne) as Hn.
  unfold Np.std. rewrite centre_div_scalar by (done || lra).
  unfold Np.mean at 1 3.
  rewrite sum_power2_div_scalar, !len_power2, len_div_scalar.
  replace (Np.sum (Np.power2 (Np.sub_scalar x (Np.mean x))) / c ^ 2
           / Np.len (Np.sub_scalar x (Np.mean x)))
    with (Np.sum (Np.power2 (Np.sub_scalar x (Np.mean x)))
          / Np.len (Np.sub_scalar x (Np.mean x)) / (c * c))
    by (rewrite len_sub_scalar; field; lra).
  rewrite sqrt_div_alt by nra. rewrite sqrt_square by lra. done.
Qed.

(** X12: [z_norm] does not see a shift of its input by a constant, nor a
    division of its input by a positive constant. *)
Theorem z_norm_affine_invariant (x : list R) (b c : R) :
  Np.std x ≠ 0 → 0 < c →
  z_norm (Np.sub_scalar x b) = z_norm x ∧
  z_norm (Np.div_scalar x c) = z_norm x.
Proof.
  intros Hs Hc.
  assert (x ≠ []) as Hne by (intros ->; by apply Hs, std_nil).
  split.
  - unfold z_norm, Np.std. by rewrite !centre_sub_scalar.
  - unfold z_norm. rewrite std_div_scalar, centre_div_scalar by (done || lra).
    unfold Np.div_scalar. rewrite <- list_fmap_compose.
    apply list_fmap_ext. intros i a _. simpl. field. split; [done | lra].
Qed.

Lemma z_norm_affine_invariant_witness :
  z_norm (Np.sub_scalar [1; 3] 5) = z_norm [1; 3] ∧
  z_norm (Np.div_scalar [1; 3] 2) = z_norm [1; 3].
Proof.
  apply (z_norm_affine_invariant [1; 3] 5 2); [exact std_1_3 | lra].
Defined.

(** X13: on the arrays of [calculate_metric_arrays(x, y)], for a window inside
    both sequences whose two slices have non-zero standard deviations,
    [pearson_metrics] lies in [[-1, 1]] and [pearson_dist_metrics] in
    [[0, 2]]. *)
Theorem pearson_metrics_range (x y : list R) (u v l : nat) :
  (u + l ≤ length x)%nat → (v + l ≤ length y)%nat →
  Np.std (Np.slice x u l) ≠ 0 → Np.std (Np.slice y v l) ≠ 0 →
  ∃ S_x S_x2 S_y S_y2 M p d,
    calculate_metric_arrays x y = Some (S_x, S_x2, S_y, S_y2, M) ∧
    pearson_metrics u v l S_x S_x2 S_y S_y2 M = Some p ∧ -1 <= p <= 1 ∧
    pearson_dist_metrics u v l S_x S_x2 S_y S_y2 M = Some d ∧ 0 <= d <= 2.
Proof.
  intros Hu Hv Hsx Hsy.
  destruct (calculate_metric_arrays_closed_form x y) as (M & Hrun & _ & Hget).
  assert (length (Np.slice x u l) = length (Np.slice y v l)) as Hlen
    by by rewrite !length_slice.
  pose proof (pearson_bounds _ _ Hlen Hsx Hsy) as Hp.
  pose proof (pearson_metrics_on_arrays x y M u v l Hget Hu Hv) as Heq.
  rewrite pearson_value in Heq by done.
  eexists _, _, _, _, M, _, _. split; [exact Hrun |].
  split; [exact Heq |]. split; [exact Hp |].
  split; [unfold pearson_dist_metrics; by rewrite Heq |].
  split; [apply sqrt_pos |].
  apply Rle_trans with (sqrt 4); [apply sqrt_le_1_alt; lra |].
  replace 4 with (2 * 2) by ring. rewrite sqrt_square; lra.
Qed.

Lemma std_slice_2_4 : Np.std (Np.slice [1; 2; 4] 1 2) ≠ 0.
Proof.
  apply non_constant_std. exists 0%nat, 1%nat, 2, 4.
  repeat split; try done. lra.
Qed.

Lemma std_slice_3_5 : Np.std (Np.slice [3; 5; 4; 7] 0 2) ≠ 0.
Proof.
  apply non_constant_std. exists 0%nat, 1%nat, 3, 5.
  repeat split; try done. lra.
Qed.

Lemma pearson_metrics_range_witness :
  ∃ S_x S_x2 S_y S_y2 M p d,
    calculate_metric_arrays [1; 2; 4] [3; 5; 4; 7] =
      Some (S_x, S_x2, S_y, S_y2, M) ∧
    pearson_metrics 1 0 2 S_x S_x2 S_y S_y2 M = Some p ∧ -1 <= p <= 1 ∧
    pearson_dist_metrics 1 0 2 S_x S_x2 S_y S_y2 M = Some d ∧ 0 <= d <= 2.
Proof.
  apply (pearson_metrics_range [1; 2; 4] [3; 5; 4; 7] 1 0 2).
  - simpl. lia.
  - simpl. lia.
  - exact std_slice_2_4.
  - exact std_slice_3_5.
Defined.

(** ** Float64: where rounding separates the program from the exact model *)

(** Concrete runs of the float64 functions. *)

Example f64_mean_of_empty : F64.non_finite (F64.Np.mean []) = true.
Proof. vm_compute. reflexivity. Qed.

Example f64_distance_underflows :
  F64.norm_euclidean_distance [1e-200%float] [0%float] = Some 0%float.
Proof. vm_compute. reflexivity. Qed.

Example f64_triangle_fails :
  F64.norm_euclidean_distance [0%float] [1e-150%float] = Some 1e-150%float ∧
  F64.norm_euclidean_distance [0%float] [1e-162%float] = Some 0%float ∧
  F64.norm_euclidean_distance [1e-162%float] [1e-150%float] =
    Some 9.9999999999900001e-151%float.
Proof. vm_compute. repeat split; reflexivity. Qed.

(** The claim of C3 fails in float64: for [x = y = [1e8, 0.1]] and the
    query [(1, 1, 1)], which is inside both sequences and on the main
    diagonal, [M[2, 2] - M[1, 1]] is [0] although [x[1] * y[1]] is not. *)
Lemma M_window_sum_aligned_fails_in_float64 :
  ∃ S_x S_x2 S_y S_y2 M ml m0,
    F64.calculate_metric_arrays [1e8; 0.1]%float [1e8; 0.1]%float =
      Some (S_x, S_x2, S_y, S_y2, M) ∧
    F64.mat_get M (1 + 1) (1 + 1) = Some ml ∧
    F64.mat_get M 1 1 = Some m0 ∧
    (ml - m0)%float = 0%float ∧
    F64.window_products [1e8; 0.1]%float [1e8; 0.1]%float 1 1 1 =
      0.010000000000000002%float ∧
    PrimFloat.eqb (ml - m0)
      (F64.window_products [1e8; 0.1]%float [1e8; 0.1]%float 1 1 1) = false.
Proof.
  eexists _, _, _, _, _, _, _. vm_compute. repeat split; reflexivity.
Qed.

(** The claim of C10 fails in float64: for [x = [1e8, 1e8, 0.1]],
    [y = [1e8, 0.1]] and the off-diagonal query [(2, 1, 1)],
    [M[3, 2] - M[2, 1]] is [0] although [x[2] * y[1]] is not. *)
Lemma M_window_sum_fails_off_diagonal_in_float64 :
  ∃ S_x S_x2 S_y S_y2 M ml m0,
    F64.calculate_metric_arrays [1e8; 1e8; 0.1]%float [1e8; 0.1]%float =
      Some (S_x, S_x2, S_y, S_y2, M) ∧
    F64.mat_get M (2 + 1) (1 + 1) = Some ml ∧
    F64.mat_get M 2 1 = Some m0 ∧
    (ml - m0)%float = 0%float ∧
    F64.window_products [1e8; 1e8; 0.1]%float [1e8; 0.1]%float 2 1 1 =
      0.010000000000000002%float ∧
    PrimFloat.eqb (ml - m0)
      (F64.window_products [1e8; 1e8; 0.1]%float [1e8; 0.1]%float 2 1 1)
    = false.
Proof.
  eexists _, _, _, _, _, _, _. vm_compute. repeat split; reflexivity.
Qed.

(** The claim of C4 fails in float64: for the non-constant
    [x = [1e8, 1e8 + 1]] and [y = [1e8 + 1, 1e8]] the distance of the
    normalised sequences is [2] and [pearson_dist] is [sqrt 2], further
    apart than [1e-6]. *)
Lemma z_norm_distance_differs_in_float64 :
  ∃ d1 d2,
    F64.norm_euclidean_distance (F64.z_norm [1e8; 100000001]%float)
      (F64.z_norm [100000001; 1e8]%float) = Some d1 ∧
    F64.pearson_dist [1e8; 100000001]%float [100000001; 1e8]%float = Some d2 ∧
    d1 = 2%float ∧ d2 = 1.4142135623730951%float ∧
    PrimFloat.leb (PrimFloat.abs (d1 - d2)) 1e-6 = false.
Proof. eexists _, _. vm_compute. repeat split; reflexivity. Qed.

(** The claim of C8 fails in float64: for [x = y = [0, 0, 1]], whose
    standard deviation is not zero, [pearson] returns
    [1.0000000000000002], which is above 1, and [pearson_dist] returns a
    NaN, which is not [≥ 0]. *)
Lemma pearson_range_fails_in_float64 :
  ∃ p d,
    F64.is_zero (F64.Np.std [0; 0; 1]%float) = false ∧
    F64.pearson [0; 0; 1]%float [0; 0; 1]%float = Some p ∧
    p = 1.0000000000000002%float ∧ PrimFloat.leb p 1 = false ∧
    F64.pearson_dist [0; 0; 1]%float [0; 0; 1]%float = Some d ∧
    PrimFloat.is_nan d = true ∧ PrimFloat.leb 0 d = false.
Proof. eexists _, _. vm_compute. repeat split; reflexivity. Qed.


(** *** The loop that fills [M], in float64

    The invariant of the exact model carries over: it is about which
    entries the loop has written, not about the arithmetic. *)

Lemma f64_mat_shape_zeros (r c : nat) : F64.mat_shape r c (F64.Np.zeros r c).
Proof.
  split; [apply length_replicate |].
  apply Forall_replicate, length_replicate.
Qed.

Lemma f64_mat_get_zeros (r c i j : nat) :
  (i < r)%nat → (j < c)%nat →
  F64.mat_get (F64.Np.zeros r c) i j = Some 0%float.
Proof.
  intros Hi Hj. unfold F64.mat_get, F64.Np.zeros.
  rewrite lookup_replicate_2 by done. simpl.
  by apply lookup_replicate_2.
Qed.

Lemma f64_mat_set_spec (r c : nat) (M : list (list float)) (u v : nat)
    (a : float) :
  F64.mat_shape r c M → (u < r)%nat → (v < c)%nat →
  ∃ M', F64.mat_set M u v a = Some M' ∧ F64.mat_shape r c M' ∧
    ∀ i j, F64.mat_get M' i j =
           if decide (i = u ∧ j = v) then Some a else F64.mat_get M i j.
Proof.
  intros [Hl Hf] Hu Hv.
  destruct (lookup_lt_is_Some_2 M u) as [row Hrow]; [lia |].
  pose proof (Forall_lookup_1 _ _ _ _ Hf Hrow) as Hlen. simpl in Hlen.
  exists (<[u := <[v := a]> row]> M). split; [| split].
  - unfold F64.mat_set. rewrite Hrow. simpl. by rewrite decide_True by lia.
  - split; [by rewrite length_insert |].
    apply Forall_insert; [done |]. by rewrite length_insert.
  - intros i j. unfold F64.mat_get. destruct (decide (i = u)) as [-> | Hne].
    + rewrite list_lookup_insert_eq by lia. simpl.
      destruct (decide (j = v)) as [-> | Hnv].
      * rewrite decide_True by done. apply list_lookup_insert_eq. lia.
      * rewrite decide_False by tauto. rewrite Hrow. simpl.
        by apply list_lookup_insert_ne.
    + rewrite decide_False by tauto.
      by rewrite list_lookup_insert_ne.
Qed.

Lemma f64_diag_sum_0_r (x y : list float) (u : nat) :
  F64.diag_sum x y u 0 = 0%float.
Proof. by destruct u. Qed.

Lemma f64_M_body_uniform (x y : list float) (u v : nat)
    (M : list (list float)) :
  F64.M_body x y u v M =
  (m0 ← F64.mat_get M u v; a ← x !! u; b ← y !! v;
   F64.mat_set M (u + 1) (v + 1) (m0 + a * b)%float).
Proof.
  unfold F64.M_body. case (decide (v < u)%nat); intros H.
  - by rewrite (offset_gt u v H).
  - by rewrite (offset_le u v H).
Qed.

Section F64MetricArrays.
Variables x y : list float.

Lemma f64_M_body_inv (u v : nat) (M : list (list float)) :
  (u < length x)%nat → (v < length y)%nat → F64.M_inv_inner x y u v M →
  ∃ M', F64.M_body x y u v M = Some M' ∧ F64.M_inv_inner x y u (v + 1) M'.
Proof.
  intros Hu Hv [Hshape Hget].
  destruct (lookup_lt_is_Some_2 x u Hu) as [a Ha].
  destruct (lookup_lt_is_Some_2 y v Hv) as [b Hb].
  destruct (f64_mat_set_spec _ _ M (u + 1) (v + 1)
              (F64.diag_sum x y u v + a * b)%float Hshape)
    as (M' & Hset & Hsh' & Hget'); [lia | lia |].
  assert (F64.mat_get M u v = Some (F64.diag_sum x y u v)) as Hm0.
  { rewrite (Hget u v) by lia. by rewrite decide_True by lia. }
  exists M'. split.
  - rewrite f64_M_body_uniform, Hm0, Ha, Hb. exact Hset.
  - split; [exact Hsh' |]. intros i j Hi Hj. rewrite Hget'.
    destruct (decide (i = u + 1 ∧ j = v + 1)%nat) as [[-> ->] | Hne].
    + rewrite decide_True by lia. f_equal.
      rewrite !Nat.add_1_r. simpl.
      by rewrite (nth_lookup_Some _ _ _ _ Ha), (nth_lookup_Some _ _ _ _ Hb).
    + rewrite (Hget i j) by lia. f_equal.
      destruct (decide (i ≤ u ∨ (i = u + 1 ∧ j ≤ v))%nat);
        destruct (decide (i ≤ u ∨ (i = u + 1 ∧ j ≤ v + 1))%nat);
        try done; exfalso; lia.
Qed.

Lemma f64_M_row_inv (u : nat) (M : list (list float)) :
  (u < length x)%nat → F64.M_inv_outer x y u M →
  ∃ M', for_range (length y) (λ v M, F64.M_body x y u v M) M = Some M' ∧
        F64.M_inv_outer x y (u + 1) M'.
Proof.
  intros Hu [Hshape Hget].
  destruct (for_range_inv (λ v M, F64.M_body x y u v M)
              (F64.M_inv_inner x y u) (length y) M)
    as (M' & Hrun & Hsh' & Hget').
  - split; [done |]. intros i j Hi Hj. rewrite (Hget i j) by done. f_equal.
    destruct (decide (i ≤ u)%nat);
      destruct (decide (i ≤ u ∨ (i = u + 1 ∧ j ≤ 0))%nat);
      try done; try (exfalso; lia).
    assert (j = 0)%nat as -> by lia. by rewrite f64_diag_sum_0_r.
  - intros v M0 Hv HM0. by apply f64_M_body_inv.
  - exists M'. split; [done |]. split; [done |].
    intros i j Hi Hj. rewrite (Hget' i j) by done. f_equal.
    destruct (decide (i ≤ u + 1)%nat);
      destruct (decide (i ≤ u ∨ (i = u + 1 ∧ j ≤ length y))%nat);
      try done; exfalso; lia.
Qed.

(** In float64 too the nested loop never raises and leaves in every
    [M[i, j]] the running sum along its diagonal. *)
Lemma f64_calculate_metric_arrays_closed_form :
  ∃ M, F64.calculate_metric_arrays x y =
         Some (F64.Np.append [0%float] (F64.Np.cumsum x),
               F64.Np.append [0%float] (F64.Np.cumsum (F64.Np.power2 x)),
               F64.Np.append [0%float] (F64.Np.cumsum y),
               F64.Np.append [0%float] (F64.Np.cumsum (F64.Np.power2 y)),
               M) ∧
       F64.mat_shape (length x + 1) (length y + 1) M ∧
       ∀ i j, (i ≤ length x)%nat → (j ≤ length y)%nat →
         F64.mat_get M i j = Some (F64.diag_sum x y i j).
Proof.
  destruct (for_range_inv
              (λ u M, for_range (length y) (λ v M, F64.M_body x y u v M) M)
              (F64.M_inv_outer x y) (length x)
              (F64.Np.zeros (length x + 1) (length y + 1)))
    as (M & Hrun & Hshape & Hget).
  - split; [apply f64_mat_shape_zeros |]. intros i j Hi Hj.
    rewrite f64_mat_get_zeros by lia. f_equal.
    destruct (decide (i ≤ 0)%nat); [| done].
    assert (i = 0)%nat as -> by lia. done.
  - intros u M0 Hu HM0. by apply f64_M_row_inv.
  - exists M. split; [| split; [done |]].
    + unfold F64.calculate_metric_arrays. by rewrite Hrun.
    + intros i j Hi Hj. rewrite (Hget i j) by done. by rewrite decide_True.
Qed.
End F64MetricArrays.

(** *** Division by a zero standard deviation, in float64 *)











Example f64_z_norm_of_constant :
  F64.is_zero (F64.Np.std [1; 1]%float) = true ∧
  F64.z_norm [1; 1]%float = [nan; nan]%float.
Proof. vm_compute. split; reflexivity. Qed.

Example f64_z_norm_of_tiny :
  F64.is_zero (F64.Np.std [0; 1e-200]%float) = true ∧
  F64.z_norm [0; 1e-200]%float = [neg_infinity; infinity]%float.
Proof. vm_compute. split; reflexivity. Qed.


(** The recurrence of [M] in exact arithmetic. *)
Lemma M_recurrence_uniform_exact (x y : list R) :
  (∀ u v M0, M_body x y u v M0 =
     (m0 ← mat_get M0 u v; a ← x !! u; b ← y !! v;
      mat_set M0 (u + 1) (v + 1) (m0 + a * b))) ∧
  ∃ S_x S_x2 S_y S_y2 M,
    calculate_metric_arrays x y = Some (S_x, S_x2, S_y, S_y2, M) ∧
    (∀ u v, (u < length x)%nat → (v < length y)%nat →
       ∃ m0 a b,
         mat_get M u v = Some m0 ∧ x !! u = Some a ∧ y !! v = Some b ∧
         mat_get M (u + 1) (v + 1) = Some (m0 + a * b)) ∧
    (∀ u v l, (u + l ≤ length x)%nat → (v + l ≤ length y)%nat →
       ∃ ml m0,
         mat_get M (u + l) (v + l) = Some ml ∧
         mat_get M u v = Some m0 ∧
         ml - m0 = window_products x y u v l).
Proof.
  split; [intros; apply M_body_uniform |].
  destruct (calculate_metric_arrays_closed_form x y) as (M & Hrun & _ & Hget).
  eexists _, _, _, _, M. split; [exact Hrun |]. split.
  - intros u v Hu Hv.
    destruct (lookup_lt_is_Some_2 x u Hu) as [a Ha].
    destruct (lookup_lt_is_Some_2 y v Hv) as [b Hb].
    exists (diag_sum x y u v), a, b.
    split; [apply Hget; lia |]. split; [done |]. split; [done |].
    rewrite Hget by lia. rewrite !Nat.add_1_r. simpl.
    by rewrite (nth_lookup_Some _ _ _ _ Ha), (nth_lookup_Some _ _ _ _ Hb).
  - intros u v l Hu Hv. eexists _, _.
    split; [apply Hget; lia |]. split; [apply Hget; lia |].
    apply diag_sum_window.
Qed.

(** C10: both branches of the loop of [calculate_metric_arrays] add
    [x[u] * y[v]], so [M[u+1, v+1] = M[u, v] + x[u] * y[v]] for every
    [u < n] and [v < m], in float64 as in exact arithmetic; and in exact
    arithmetic [M[u+l, v+l] - M[u, v]] is the sum of [x[u+i] * y[v+i]]
    over [i < l] for every [(u, v, l)] with [u + l ≤ n] and [v + l ≤ m],
    whatever the offset [u - v]. *)
Theorem M_recurrence_uniform_and_exact_window_sum :
  (∀ x y : list float,
     (∀ u v M0, F64.M_body x y u v M0 =
        (m0 ← F64.mat_get M0 u v; a ← x !! u; b ← y !! v;
         F64.mat_set M0 (u + 1) (v + 1) (m0 + a * b)%float)) ∧
     ∃ S_x S_x2 S_y S_y2 M,
       F64.calculate_metric_arrays x y = Some (S_x, S_x2, S_y, S_y2, M) ∧
       ∀ u v, (u < length x)%nat → (v < length y)%nat →
         ∃ m0 a b,
           F64.mat_get M u v = Some m0 ∧ x !! u = Some a ∧ y !! v = Some b ∧
           F64.mat_get M (u + 1) (v + 1) = Some (m0 + a * b)%float) ∧
  (∀ x y : list R,
     (∀ u v M0, M_body x y u v M0 =
        (m0 ← mat_get M0 u v; a ← x !! u; b ← y !! v;
         mat_set M0 (u + 1) (v + 1) (m0 + a * b))) ∧
     ∃ S_x S_x2 S_y S_y2 M,
       calculate_metric_arrays x y = Some (S_x, S_x2, S_y, S_y2, M) ∧
       (∀ u v, (u < length x)%nat → (v < length y)%nat →
          ∃ m0 a b,
            mat_get M u v = Some m0 ∧ x !! u = Some a ∧ y !! v = Some b ∧
            mat_get M (u + 1) (v + 1) = Some (m0 + a * b)) ∧
       (∀ u v l, (u + l ≤ length x)%nat → (v + l ≤ length y)%nat →
          ∃ ml m0,
            mat_get M (u + l) (v + l) = Some ml ∧
            mat_get M u v = Some m0 ∧
            ml - m0 = window_products x y u v l)).
Proof.
  split; [| exact M_recurrence_uniform_exact].
  intros x y. split; [intros; apply f64_M_body_uniform |].
  destruct (f64_calculate_metric_arrays_closed_form x y)
    as (M & Hrun & _ & Hget).
  eexists _, _, _, _, M. split; [exact Hrun |].
  intros u v Hu Hv.
  destruct (lookup_lt_is_Some_2 x u Hu) as [a Ha].
  destruct (lookup_lt_is_Some_2 y v Hv) as [b Hb].
  exists (F64.diag_sum x y u v), a, b.
  split; [apply Hget; lia |]. split; [done |]. split; [done |].
  rewrite Hget by lia. rewrite !Nat.add_1_r. simpl.
  by rewrite (nth_lookup_Some _ _ _ _ Ha), (nth_lookup_Some _ _ _ _ Hb).
Qed.
